(** * rtldavis: the protocol layer ([protocol/protocol.go])

    A shallow embedding of the hop sequencer, the frequency tracker, the
    packet validator and the message model of the Davis weather-station
    receiver, together with the properties its specification states.

    Conventions of the embedding:
    - Go's [int] and [time.Duration] are 64-bit two's-complement integers:
      they are modelled as [Z] and every arithmetic operation wraps
      ([Int.wrap]).
    - a [byte] is [Byte.byte]; the bit operations go through [Z].
    - a [float64] is a primitive binary64 float.
    - a run-time panic is the [Panic] result; the state a panic leaves
      behind is not modelled.
    - [[]byte] payloads are windows on a byte-addressed memory, because
      [Parse] rewrites them in place. *)

From Stdlib Require Import ZArith Lia.
From Stdlib Require Import Floats.PrimFloat Floats.FloatOps Floats.SpecFloat
  Floats.FloatAxioms.
From Stdlib Require Import Strings.Ascii Strings.Byte.
From stdpp Require Import gmap strings list pretty.

Local Open Scope Z_scope.

(** ** Machine integers *)

Module Int.
Definition min_int : Z := - 2 ^ 63.
Definition max_int : Z := 2 ^ 63 - 1.

(** Reduction of a mathematical integer to the 64-bit signed range. *)
Definition wrap (z : Z) : Z := (z + 2 ^ 63) mod 2 ^ 64 - 2 ^ 63.

Definition in_range (z : Z) : Prop := min_int <= z <= max_int.

Definition add (a b : Z) : Z := wrap (a + b).
Definition mul (a b : Z) : Z := wrap (a * b).
Definition neg (a : Z) : Z := wrap (- a).
(** Go's [%] truncates towards zero; its result is always in range. *)
Definition rem (a b : Z) : Z := Z.rem a b.
End Int.

(** ** Panics *)

Inductive panic : Set :=
| IndexOutOfRange
| SliceBoundsOutOfRange
| MakeSliceLenOutOfRange
| IntegerDivideByZero
| InvalidArgumentToIntn.

Inductive Result (A : Type) : Type :=
| Ok (a : A)
| Panic (e : panic).
Arguments Ok {A} a.
Arguments Panic {A} e.

#[global] Instance Result_ret : MRet Result := fun A a => Ok a.
#[global] Instance Result_bind : MBind Result := fun A B f m =>
  match m with
  | Ok a => f a
  | Panic e => Panic e
  end.

Definition is_Ok {A} (r : Result A) : Prop := exists a, r = Ok a.
Definition is_Panic {A} (r : Result A) : Prop := exists e, r = Panic e.

(** ** Slices held by value *)

(** [l[i]] *)
Definition index {A} (l : list A) (i : Z) : Result A :=
  if decide (0 <= i) then
    match l !! Z.to_nat i with
    | Some x => Ok x
    | None => Panic IndexOutOfRange
    end
  else Panic IndexOutOfRange.

(** [l[lo:]] *)
Definition slice_from {A} (l : list A) (lo : Z) : Result (list A) :=
  if decide (0 <= lo <= Z.of_nat (length l)) then Ok (drop (Z.to_nat lo) l)
  else Panic SliceBoundsOutOfRange.

(** [l[lo:hi]], for a list that stands for a backing array up to its
    capacity. *)
Definition slice_range {A} (l : list A) (lo hi : Z) : Result (list A) :=
  if decide (0 <= lo /\ lo <= hi /\ hi <= Z.of_nat (length l)) then
    Ok (take (Z.to_nat (hi - lo)) (drop (Z.to_nat lo) l))
  else Panic SliceBoundsOutOfRange.

(** [make([]byte, n)] *)
Definition make_bytes (n : Z) : Result (list byte) :=
  if decide (0 <= n) then Ok (replicate (Z.to_nat n) x00)
  else Panic MakeSliceLenOutOfRange.

(** [copy(dst, src)]: the first [min (len dst) (len src)] elements. *)
Definition copy {A} (dst src : list A) : list A :=
  take (length dst) src ++ drop (length src) dst.

(** ** Bytes *)

Definition Z_of_byte (b : byte) : Z := Z.of_N (Byte.to_N b).
Definition byte_of_Z (z : Z) : byte :=
  default x00 (Byte.of_N (Z.to_N (z mod 256))).

Definition band (b : byte) (m : Z) : byte := byte_of_Z (Z.land (Z_of_byte b) m).
Definition bor (a b : byte) : byte := byte_of_Z (Z.lor (Z_of_byte a) (Z_of_byte b)).
Definition bshr (b : byte) (n : Z) : byte := byte_of_Z (Z.shiftr (Z_of_byte b) n).
Definition bshl (b : byte) (n : Z) : byte := byte_of_Z (Z.shiftl (Z_of_byte b) n).

#[global] Instance byte_eq_dec : EqDecision byte.
Proof. intros a b. unfold Decision. apply Byte.byte_eq_dec. Defined.

#[global] Instance byte_countable : Countable byte :=
  inj_countable Byte.to_N Byte.of_N Byte.of_to_N.

(** [SwapBitOrder]: three masked swaps. *)
Definition SwapBitOrder (b : byte) : byte :=
  let b := bor (bshr (band b 0xF0) 4) (bshl (band b 0x0F) 4) in
  let b := bor (bshr (band b 0xCC) 2) (bshl (band b 0x33) 2) in
  let b := bor (bshr (band b 0xAA) 1) (bshl (band b 0x55) 1) in
  b.

Definition bit (b : byte) (i : nat) : bool := Z.testbit (Z_of_byte b) (Z.of_nat i).

(** The bits of a byte, from bit 0 up. *)
Definition bits (b : byte) : list bool := bit b <$> seq 0 8.

(** ** Floating point *)

(** [float64(n)] for an [int]: rounding to nearest, ties to even. *)
Definition float64_of_int (z : Z) : float :=
  SF2Prim (binary_normalize prec emax z 0 false).

(** [int(f)]: the fraction is discarded. Go leaves the result open when the
    value does not fit (or is a NaN); amd64 yields the smallest [int]. *)
Definition int_of_float64 (f : float) : Z :=
  match Prim2SF f with
  | S754_zero _ => 0
  | S754_finite s m e =>
      let a := if 0 <=? e then Z.shiftl (Zpos m) e else Z.shiftr (Zpos m) (- e) in
      let z := if s then - a else a in
      if decide (Int.min_int <= z <= Int.max_int) then z else Int.min_int
  | _ => Int.min_int
  end.

(** [2*math.Pi], an exact constant rounded once to binary64. *)
Definition two_pi : float := 0x1.921fb54442d18p+2%float.

(** ** Memory holding the packets' payload bytes *)

(** Addresses that were never written read as zero. *)
Abbreviation memory := (gmap nat byte).

Definition mem_read (h : memory) (a : nat) : byte := default x00 (h !! a).

(** A [[]byte]: a window of [len] bytes starting at address [ptr]. *)
Record slice : Set := mkSlice { ptr : nat; len : nat }.

Definition load (h : memory) (s : slice) : list byte :=
  mem_read h <$> seq (ptr s) (len s).

Definition store (h : memory) (a : nat) (b : byte) : memory := <[a := b]> h.

(** ** Collaborators: packages [dsp], [crc] and [math/rand]

    [crc_CRC] is the type [crc.CRC]; [rand_Source] is the state of the
    global source of [math/rand]. *)

(** The fields of [dsp.PacketConfig] that the protocol layer reads. *)
Record dsp_PacketConfig : Set := mkPacketConfig {
  SymbolLength : Z;
  SampleRate : Z
}.

(** [dsp.Demodulator]: [Discriminated] lists the backing array of the
    discriminator trace up to the slice's capacity, which is what bounds a
    slice expression. *)
Record dsp_Demodulator : Set := mkDemodulator {
  Discriminated : list float
}.

Record dsp_Packet : Set := mkPacket {
  Idx : Z;
  Data : slice
}.

Class Collaborators (crc_CRC rand_Source : Type) : Type := {
  crc_NewCRC : string -> Z -> Z -> Z -> crc_CRC;
  (** the method [Checksum] of [crc.CRC], on the bytes of its argument *)
  crc_Checksum : crc_CRC -> list byte -> Z;
  dsp_NewPacketConfig : Z -> Z -> Z -> Z -> string -> dsp_PacketConfig;
  dsp_NewDemodulator : dsp_PacketConfig -> dsp_Demodulator;
  (** what [rand.Intn n] returns for [0 < n], and the source it leaves *)
  rand_draw : Z -> rand_Source -> Z * rand_Source
}.

(** The documented contract of [rand.Intn]: a value in [[0,n)]. *)
Class RandContract {crc_CRC rand_Source : Type}
    (C : Collaborators crc_CRC rand_Source) : Prop :=
  rand_draw_range : forall n g, 0 < n -> 0 <= (rand_draw n g).1 < n.

(** ** The protocol layer *)

Section Protocol.
Context {crc_CRC rand_Source : Type} {C : Collaborators crc_CRC rand_Source}.

(** [rand.Intn] *)
Definition rand_Intn (n : Z) (g : rand_Source) : Result (Z * rand_Source) :=
  if decide (n <= 0) then Panic InvalidArgumentToIntn else Ok (rand_draw n g).

Definition NewPacketConfig (symbolLength : Z) : dsp_PacketConfig :=
  dsp_NewPacketConfig 19200 14 16 80 "1100101110001001".

Record Parser : Type := mkParser {
  Demodulator : dsp_Demodulator;
  CRC : crc_CRC;
  Cfg : dsp_PacketConfig;
  ID : Z;
  DwellTime : Z;  (* a [time.Duration]: nanoseconds *)
  channelCount : Z;
  channels : list Z;
  hopIdx : Z;
  hopPattern : list Z;
  currentFreqErr : Z;
  channelFreqErr : gmap Z Z
}.

Definition set_Demodulator (d : dsp_Demodulator) (p : Parser) : Parser :=
  mkParser d (CRC p) (Cfg p) (ID p) (DwellTime p) (channelCount p)
    (channels p) (hopIdx p) (hopPattern p) (currentFreqErr p) (channelFreqErr p).

Definition set_hopIdx (i : Z) (p : Parser) : Parser :=
  mkParser (Demodulator p) (CRC p) (Cfg p) (ID p) (DwellTime p) (channelCount p)
    (channels p) i (hopPattern p) (currentFreqErr p) (channelFreqErr p).

Definition set_currentFreqErr (e : Z) (p : Parser) : Parser :=
  mkParser (Demodulator p) (CRC p) (Cfg p) (ID p) (DwellTime p) (channelCount p)
    (channels p) (hopIdx p) (hopPattern p) e (channelFreqErr p).

Definition set_channelFreqErr (m : gmap Z Z) (p : Parser) : Parser :=
  mkParser (Demodulator p) (CRC p) (Cfg p) (ID p) (DwellTime p) (channelCount p)
    (channels p) (hopIdx p) (hopPattern p) (currentFreqErr p) m.

(** [time.Microsecond], in nanoseconds. *)
Definition Microsecond : Z := 1000.

Definition channel_table : list Z :=
  [867500000; 867625000; 867750000; 867875000;
   868000000; 868125000; 868250000; 868375000; 868500000].

Definition hop_table : list Z := [0; 4; 8; 1; 5; 3; 6; 2; 7].

Definition NewParser (symbolLength id : Z) (g : rand_Source)
  : Result (Parser * rand_Source) :=
  let cfg := NewPacketConfig symbolLength in
  let demod := dsp_NewDemodulator cfg in
  let crc := crc_NewCRC "CCITT-16" 0 0x1021 0 in
  let chans := channel_table in
  let count := Z.of_nat (length chans) in
  '(i, g') ← rand_Intn count g;
  let dwell := 3000 * Microsecond in
  let dwell := Int.add dwell (Int.mul (Int.mul id 62500) Microsecond) in
  Ok (mkParser demod crc cfg id dwell count chans i hop_table 0 ∅, g').

Record Hop : Set := mkHop {
  ChannelIdx : Z;
  ChannelFreq : Z;
  FreqError : Z
}.

Definition hop (p : Parser) : Result (Hop * Parser) :=
  chIdx ← index (hopPattern p) (hopIdx p);
  chFreq ← index (channels p) chIdx;
  (* If this channel has already been visited, use frequency error from
     last visit. Otherwise use frequency error from previous channel. *)
  key ← index (hopPattern p) (hopIdx p);
  let p' := match channelFreqErr p !! key with
            | Some freqErr => set_currentFreqErr freqErr p
            | None => p
            end in
  Ok (mkHop chIdx chFreq (currentFreqErr p'), p').

(** Increment the pattern index and return the new channel's parameters. *)
Definition NextHop (p : Parser) : Result (Hop * Parser) :=
  if decide (channelCount p = 0) then Panic IntegerDivideByZero
  else hop (set_hopIdx (Int.rem (Int.add (hopIdx p) 1) (channelCount p)) p).

(** Randomize the pattern index and return the new channel's parameters. *)
Definition RandHop (p : Parser) (g : rand_Source)
  : Result (Hop * Parser * rand_Source) :=
  '(i, g') ← rand_Intn (channelCount p) g;
  '(h, p') ← hop (set_hopIdx i p);
  Ok (h, p', g').

End Protocol.

Arguments Parser : clear implicits.

(** ** Messages *)

Definition Sensor : Set := byte.

Definition SuperCapVoltage : Sensor := x02.
Definition UVIndex : Sensor := x04.
Definition RainRate : Sensor := x05.
Definition SolarRadiation : Sensor := x06.
Definition Light : Sensor := x07.
Definition Temperature : Sensor := x08.
Definition WindGustSpeed : Sensor := x09.
Definition Humidity : Sensor := x0a.
Definition Rain : Sensor := x0e.

Definition known_sensors : list Sensor :=
  [SuperCapVoltage; UVIndex; RainRate; SolarRadiation; Light; Temperature;
   WindGustSpeed; Humidity; Rain].

Definition hex_digit (n : Z) : ascii :=
  default "?"%char (String.list_ascii_of_string "0123456789ABCDEF" !! Z.to_nat n).

(** The verb [%0X] of [fmt] on a [byte]: upper-case hexadecimal; the flag
    [0] pads to a width, and none is given. *)
Definition fmt_X (b : byte) : string :=
  let v := Z_of_byte b in
  if decide (v < 16) then String (hex_digit v) EmptyString
  else String (hex_digit (v / 16)) (String (hex_digit (v mod 16)) EmptyString).

Definition Sensor_String (s : Sensor) : string :=
  if decide (s = SuperCapVoltage) then "SuperCap Voltage"
  else if decide (s = UVIndex) then "UV Index"
  else if decide (s = RainRate) then "Rain Rate"
  else if decide (s = SolarRadiation) then "Solar Radiation"
  else if decide (s = Light) then "Light"
  else if decide (s = Temperature) then "Temperature"
  else if decide (s = WindGustSpeed) then "Wind Gust Speed"
  else if decide (s = Humidity) then "Humidity"
  else if decide (s = Rain) then "Rain"
  else "Unknown(0x" +:+ fmt_X s +:+ ")".

(** [Message] embeds a [dsp.Packet] whose [Data] is an array made for it and
    shared with nothing else: the model holds the contents. *)
Module Message.
Record t : Set := mk {
  Idx : Z;
  Data : list byte;
  ID : byte;
  Sensor : Sensor;
  WindSpeed : byte;
  WindDirection : byte
}.
End Message.

Definition NewMessage (h : memory) (pkt : dsp_Packet) : Result Message.t :=
  let idx := Idx pkt in
  dst ← make_bytes (Z.of_nat (len (Data pkt)) - 2);
  src ← slice_from (load h (Data pkt)) 2;
  let data := copy dst src in
  d0 ← index data 0;
  let id := band d0 0xF in
  d0' ← index data 0;
  let sensor := bshr d0' 4 in
  d1 ← index data 1;
  d2 ← index data 2;
  Ok (Message.mk idx data id sensor d1 d2).

(** ** The packet decoder *)

(** The loop of [Parse] that reverses the bit order of a payload in place. *)
Definition swap_payload (h : memory) (s : slice) : memory :=
  foldl (fun h idx =>
           store h (ptr s + idx)%nat (SwapBitOrder (mem_read h (ptr s + idx)%nat)))
        h (seq 0 (len s)).

Section Decoder.
Context {crc_CRC rand_Source : Type} {C : Collaborators crc_CRC rand_Source}.

(** The variables of one run of [Parse]: the memory of the payloads, the
    local [seen], the receiver, the result [msgs]; [checksummed] records the
    arguments of the calls to [Checksum], in order. *)
Record parse_state : Type := mkState {
  mem : memory;
  seen : gmap (list byte) bool;
  parser : Parser crc_CRC;
  msgs : list Message.t;
  checksummed : list (list byte)
}.

(** The mean of the packet's tail, as the loop of [Parse] accumulates it. *)
Definition tail_mean (tail : list float) : float :=
  let mean := foldl PrimFloat.add 0%float tail in
  let mean := (mean / float64_of_int (Z.of_nat (length tail)))%float in
  mean.

(** The tail is a series of zero symbols. The discriminator's output is
    measured in radians. *)
Definition freq_error (cfg : dsp_PacketConfig) (mean : float) : Z :=
  Int.neg (int_of_float64
    (9600 + (mean * float64_of_int (SampleRate cfg)) / two_pi)%float).

(** The two assignments of [Parse] to the tracker. (Assigning to a [nil] map
    would panic; [NewParser] makes the map.) *)
Definition Parse_track (freqError : Z) (p : Parser crc_CRC) : Result (Parser crc_CRC) :=
  (* Set the current channel's frequency error. *)
  ch ← index (hopPattern p) (hopIdx p);
  let p := set_channelFreqErr
             (<[ch := Int.add (currentFreqErr p) freqError]> (channelFreqErr p)) p in
  (* Update the current frequency error. *)
  let p := set_currentFreqErr (Int.add (currentFreqErr p) freqError) p in
  Ok p.

(** The body of the loop over the packets. *)
Definition Parse_body (st : parse_state) (pkt : dsp_Packet) : Result parse_state :=
  let p := parser st in
  (* Bit order over-the-air is reversed. *)
  let h := swap_payload (mem st) (Data pkt) in
  (* Keep track of duplicate packets. *)
  let s := load h (Data pkt) in
  if default false (seen st !! s) then
    Ok (mkState h (seen st) p (msgs st) (checksummed st))
  else
    let seen' := <[s := true]> (seen st) in
    (* If the checksum fails, bail. *)
    payload ← slice_from s 2;
    let sums := checksummed st ++ [payload] in
    if decide (crc_Checksum (CRC p) payload ≠ 0) then
      Ok (mkState h seen' p (msgs st) sums)
    else
      (* Look at the packet's tail to determine frequency error between
         transmitter and receiver. *)
      let lower := Int.add (Idx pkt) (Int.mul 8 (SymbolLength (Cfg p))) in
      let upper := Int.add (Idx pkt) (Int.mul 24 (SymbolLength (Cfg p))) in
      tail ← slice_range (Discriminated (Demodulator p)) lower upper;
      let freqError := freq_error (Cfg p) (tail_mean tail) in
      p' ← Parse_track freqError p;
      m ← NewMessage h pkt;
      Ok (mkState h seen' p' (msgs st ++ [m]) sums).

Fixpoint Parse_loop (st : parse_state) (pkts : list dsp_Packet) : Result parse_state :=
  match pkts with
  | [] => Ok st
  | pkt :: rest => st' ← Parse_body st pkt; Parse_loop st' rest
  end.

Definition Parse_init (p : Parser crc_CRC) (h : memory) : parse_state :=
  mkState h ∅ p [] [].

(** Given a list of packets, check them for validity and ignore duplicates,
    return a list of parsed messages. The receiver and the memory of the
    payloads are returned as [Parse] leaves them. *)
Definition Parse (p : Parser crc_CRC) (h : memory) (pkts : list dsp_Packet)
  : Result (list Message.t * Parser crc_CRC * memory) :=
  st ← Parse_loop (Parse_init p h) pkts;
  Ok (msgs st, parser st, mem st).

End Decoder.

Arguments parse_state : clear implicits.

(** ** An instance of the collaborators

    The development is parametric in the collaborators. To run it on
    concrete inputs they are instantiated: by the bitwise CRC-16 with the
    parameters [NewParser] passes to [crc.NewCRC], by a packet configuration
    whose sample rate is the bit rate times the symbol length, and by a
    linear congruential source of random numbers. *)

Record crc16 : Set := mkCRC16 {
  crc_Name : string;
  crc_Init : Z;
  crc_Poly : Z;
  crc_Residue : Z
}.

Definition crc16_shift (poly rem : Z) : Z :=
  let s := Z.shiftl rem 1 mod 65536 in
  if Z.testbit rem 15 then Z.lxor s poly else s.

Definition crc16_update (poly rem : Z) (b : byte) : Z :=
  Nat.iter 8 (crc16_shift poly) (Z.lxor rem (Z.shiftl (Z_of_byte b) 8)).

Definition crc16_Checksum (c : crc16) (data : list byte) : Z :=
  foldl (crc16_update (crc_Poly c)) (crc_Init c) data.

Definition lcg_draw (n : Z) (g : Z) : Z * Z :=
  (g mod n, (g * 1103515245 + 12345) mod 2 ^ 31).

Definition demo : Collaborators crc16 Z := {|
  crc_NewCRC := mkCRC16;
  crc_Checksum := crc16_Checksum;
  dsp_NewPacketConfig := fun bitRate symbolLength _ _ _ =>
    mkPacketConfig symbolLength (bitRate * symbolLength);
  dsp_NewDemodulator := fun _ => mkDemodulator [];
  rand_draw := lcg_draw
|}.

(** A memory that holds the bytes [l] from address [a] on, and zeros. *)
Definition mem_of (a : nat) (l : list byte) : memory :=
  list_to_map (zip (seq a (length l)) l).

Definition bytes_of (l : list Z) : list byte := byte_of_Z <$> l.

(** A packet whose payload checksums to zero once its bits are reversed:
    id 3, sensor 8, wind speed 12, wind direction 200. *)
Definition demo_payload : list byte :=
  bytes_of [0x53; 0x91; 0x83; 12; 200; 0x11; 0x22; 0x33; 0xB5; 0x6B].

Definition demo_raw : list byte := SwapBitOrder <$> demo_payload.

(** A constant trace, for which the measured frequency error is -50 Hz. *)
Definition demo_trace : list float :=
  replicate 512 (-0x1.c92ccf6be37dfp-3)%float.

(** What [NewParser 14 1] returns on the source 42, tuned to [demo_trace]. *)
Definition demo_parser : Parser crc16 :=
  mkParser (mkDemodulator demo_trace) (mkCRC16 "CCITT-16" 0 0x1021 0)
    (mkPacketConfig 14 268800) 1 65500000 9 channel_table 6 hop_table 0 ∅.

(** The same bytes with the wind direction changed: the checksum fails. *)
Definition demo_bad_payload : list byte :=
  bytes_of [0x53; 0x91; 0x83; 12; 201; 0x11; 0x22; 0x33; 0xB5; 0x6B].

(** A memory with [demo_raw] at addresses 0 and 32, the corrupted packet at
    address 16, and zeros elsewhere. *)
Definition demo_mem : memory :=
  mem_of 0 (demo_raw ++ replicate 6 x00
            ++ (SwapBitOrder <$> demo_bad_payload) ++ replicate 6 x00
            ++ demo_raw).

Definition pkt_good : dsp_Packet := mkPacket 100 (mkSlice 0 10).
Definition pkt_bad : dsp_Packet := mkPacket 130 (mkSlice 16 10).
Definition pkt_dup : dsp_Packet := mkPacket 104 (mkSlice 32 10).
(** Two zero bytes: nothing is left for the checksum, which is then zero. *)
Definition pkt_short : dsp_Packet := mkPacket 50 (mkSlice 48 2).

Definition demo_state : parse_state crc16 :=
  Parse_init demo_parser demo_mem.

Definition from_Ok {A} (d : A) (r : Result A) : A :=
  match r with
  | Ok a => a
  | Panic _ => d
  end.

(** The states of [Parse] after [pkt_good], and after [pkt_bad] then. *)
Definition demo_state1 : parse_state crc16 :=
  from_Ok demo_state (Parse_body (C := demo) demo_state pkt_good).
Definition demo_state2 : parse_state crc16 :=
  from_Ok demo_state (Parse_body (C := demo) demo_state1 pkt_bad).

(** What [Parse] returns on the three packets. *)
Definition demo_run : list Message.t * Parser crc16 * memory :=
  from_Ok ([], demo_parser, demo_mem)
    (Parse (C := demo) demo_parser demo_mem [pkt_good; pkt_bad; pkt_dup]).

(** The receiver once a decode has measured -50 Hz on it, and after a
    [NextHop] and a [RandHop] that comes back to the same hop index. *)
Definition demo_tracked : Parser crc16 :=
  from_Ok demo_parser (Parse_track (-50) demo_parser).
Definition demo_hopped : Parser crc16 :=
  (from_Ok (mkHop 0 0 0, demo_parser) (NextHop demo_tracked)).2.

(** [demo_payload] with another first prefix byte, stored at address 16
    behind [demo_raw]. *)
Definition demo_prefix_payload : list byte :=
  bytes_of [0x54; 0x91; 0x83; 12; 200; 0x11; 0x22; 0x33; 0xB5; 0x6B].

Definition demo_mem_prefix : memory :=
  mem_of 0 (demo_raw ++ replicate 6 x00 ++ (SwapBitOrder <$> demo_prefix_payload)).

Definition pkt_prefix : dsp_Packet := mkPacket 120 (mkSlice 16 10).

Definition demo_state_prefix : parse_state crc16 :=
  Parse_init demo_parser demo_mem_prefix.

(** The zero value of [Parser]. *)
Definition demo_zero : Parser crc16 :=
  mkParser (mkDemodulator []) (mkCRC16 "" 0 0 0) (mkPacketConfig 0 0)
    0 0 0 [] 0 [] 0 ∅.

(** What a second run of [Parse] on the three packets returns. *)
Definition demo_rerun : list Message.t * Parser crc16 * memory :=
  from_Ok ([], demo_parser, demo_mem)
    (Parse (C := demo) demo_run.1.2 demo_run.2 [pkt_good; pkt_bad; pkt_dup]).

(** ** Notions used by the statements *)

Section Notions.
Context {crc_CRC rand_Source : Type} {C : Collaborators crc_CRC rand_Source}.

(** The tables [NewParser] installs; nothing assigns to them afterwards. *)
Definition tables_ok (p : Parser crc_CRC) : Prop :=
  channels p = channel_table /\ channelCount p = 9 /\ hopPattern p = hop_table.

Definition hopIdx_ok (p : Parser crc_CRC) : Prop := 0 <= hopIdx p < channelCount p.

(** What a hop transition leaves alone: the tables and the per-channel
    map of frequency errors. *)
Definition hop_frame (p p' : Parser crc_CRC) : Prop :=
  channels p' = channels p /\ channelCount p' = channelCount p /\
  hopPattern p' = hopPattern p /\ channelFreqErr p' = channelFreqErr p.

(** What [Parse] leaves alone: everything but the tracker. *)
Definition parse_frame (p p' : Parser crc_CRC) : Prop :=
  Demodulator p' = Demodulator p /\ CRC p' = CRC p /\ Cfg p' = Cfg p /\
  ID p' = ID p /\ DwellTime p' = DwellTime p /\
  channels p' = channels p /\ channelCount p' = channelCount p /\
  hopPattern p' = hopPattern p /\ hopIdx p' = hopIdx p.

(** The entry of the hop pattern at a position taken modulo its length. *)
Definition pattern_at (i : Z) : Z :=
  default 0 (hop_table !! Z.to_nat (i mod 9)).

(** The receivers a program can hold: made by [NewParser], then driven
    through the methods of [Parser] and of the embedded demodulator (which
    only touches its own field). *)
Inductive Reachable : Parser crc_CRC -> Prop :=
| Reach_new symbolLength id g p g' :
    NewParser symbolLength id g = Ok (p, g') -> Reachable p
| Reach_hop p h p' :
    Reachable p -> hop p = Ok (h, p') -> Reachable p'
| Reach_NextHop p h p' :
    Reachable p -> NextHop p = Ok (h, p') -> Reachable p'
| Reach_RandHop p g h p' g' :
    Reachable p -> RandHop p g = Ok (h, p', g') -> Reachable p'
| Reach_Parse p m pkts ms p' m' :
    Reachable p -> Parse p m pkts = Ok (ms, p', m') -> Reachable p'
| Reach_demodulate p d :
    Reachable p -> Reachable (set_Demodulator d p).

(** [n] successive calls to [NextHop]. *)
Fixpoint NextHops (n : nat) (p : Parser crc_CRC) : Result (list Hop * Parser crc_CRC) :=
  match n with
  | O => Ok ([], p)
  | S n =>
      '(h, p') ← NextHop p;
      '(hs, p'') ← NextHops n p';
      Ok (h :: hs, p'')
  end.

(** One hop transition of the driving loop. *)
Inductive hop_step : Parser crc_CRC -> Parser crc_CRC -> Prop :=
| step_hop p h p' : hop p = Ok (h, p') -> hop_step p p'
| step_NextHop p h p' : NextHop p = Ok (h, p') -> hop_step p p'
| step_RandHop p g h p' g' : RandHop p g = Ok (h, p', g') -> hop_step p p'.

(** The deduplication key of a packet: the bytes its payload holds once
    [Parse] has reversed their bit order, in a memory [h]. *)
Definition dedup_key (h : memory) (pkt : dsp_Packet) : list byte :=
  SwapBitOrder <$> load h (Data pkt).

(** The windows of two slices share no address. *)
Definition in_window (a : nat) (s : slice) : Prop :=
  (ptr s <= a < ptr s + len s)%nat.

Definition separate (s t : slice) : Prop :=
  forall a, in_window a s -> ~ in_window a t.

(** A packet is fresh when its key has not been recorded in [seen]. *)
Definition fresh (st : parse_state crc_CRC) (pkt : dsp_Packet) : Prop :=
  default false (seen st !! dedup_key (mem st) pkt) = false.

(** The three ways in which [Parse] gets past a packet. *)
Inductive outcome (st : parse_state crc_CRC) (pkt : dsp_Packet) (st' : parse_state crc_CRC) : Prop :=
| out_duplicate :
    ~ fresh st pkt ->
    st' = mkState (swap_payload (mem st) (Data pkt)) (seen st) (parser st)
            (msgs st) (checksummed st) ->
    outcome st pkt st'
| out_rejected :
    fresh st pkt -> (2 <= len (Data pkt))%nat ->
    crc_Checksum (CRC (parser st)) (drop 2 (dedup_key (mem st) pkt)) <> 0 ->
    st' = mkState (swap_payload (mem st) (Data pkt))
            (<[dedup_key (mem st) pkt := true]> (seen st)) (parser st) (msgs st)
            (checksummed st ++ [drop 2 (dedup_key (mem st) pkt)]) ->
    outcome st pkt st'
| out_decoded tail p' m :
    fresh st pkt -> (2 <= len (Data pkt))%nat ->
    crc_Checksum (CRC (parser st)) (drop 2 (dedup_key (mem st) pkt)) = 0 ->
    slice_range (Discriminated (Demodulator (parser st)))
      (Int.add (Idx pkt) (Int.mul 8 (SymbolLength (Cfg (parser st)))))
      (Int.add (Idx pkt) (Int.mul 24 (SymbolLength (Cfg (parser st))))) = Ok tail ->
    Parse_track (freq_error (Cfg (parser st)) (tail_mean tail)) (parser st) = Ok p' ->
    NewMessage (swap_payload (mem st) (Data pkt)) pkt = Ok m ->
    st' = mkState (swap_payload (mem st) (Data pkt))
            (<[dedup_key (mem st) pkt := true]> (seen st)) p' (msgs st ++ [m])
            (checksummed st ++ [drop 2 (dedup_key (mem st) pkt)]) ->
    outcome st pkt st'.

(** The frequency error in the specification's words: the samples of the
    trace from 8 symbol periods after the sample index up to, and without,
    24 symbol periods after it; their arithmetic mean; and
    [-(9600 + mean * sampleRate / (2 pi))] as an integer. *)
Definition spec_window (trace : list float) (idx symbolLength : Z) : list float :=
  let first := Z.to_nat (idx + 8 * symbolLength) in
  let past := Z.to_nat (idx + 24 * symbolLength) in
  omap (fun i => trace !! i) (seq first (past - first)).

Definition spec_mean (samples : list float) : float :=
  (foldl PrimFloat.add 0 samples / float64_of_int (Z.of_nat (length samples)))%float.

Definition spec_freq_error (mean : float) (sampleRate : Z) : Z :=
  int_of_float64 (- (9600 + mean * float64_of_int sampleRate / two_pi))%float.

End Notions.

(** ** Rendering of hops and messages

    The verbs of [fmt.Sprintf]: [%d] writes an integer in decimal, with a
    minus sign when it is negative; [%2d] pads it on the left with spaces to
    two characters; [%s] on a [Sensor] calls its method [String]. *)

Definition fmt_d (z : Z) : string := pretty z.

Definition fmt_2d (z : Z) : string :=
  let s := fmt_d z in
  if decide (String.length s < 2)%nat then " " +:+ s else s.

Definition Hop_String (h : Hop) : string :=
  "{ChannelIdx:" +:+ fmt_2d (ChannelIdx h)
  +:+ " ChannelFreq:" +:+ fmt_d (ChannelFreq h)
  +:+ " FreqError:" +:+ fmt_d (FreqError h) +:+ "}".

Definition Message_String (m : Message.t) : string :=
  "{ID:" +:+ fmt_d (Z_of_byte (Message.ID m))
  +:+ " Sensor:" +:+ Sensor_String (Message.Sensor m)
  +:+ " WindSpeed:" +:+ fmt_d (Z_of_byte (Message.WindSpeed m))
  +:+ " WindDir:" +:+ fmt_d (Z_of_byte (Message.WindDirection m)) +:+ "}".

(** The characters of a string. *)
Definition chars (s : string) : list ascii := String.list_ascii_of_string s.

(** The characters [%d] writes. *)
Definition decimal_chars : list ascii := chars "-0123456789".

(** The 256 bytes, in order. *)
Definition all_bytes : list byte :=
  (fun n => byte_of_Z (Z.of_nat n)) <$> seq 0 256.

(** The packets of a batch lie apart: no two of them share an address. *)
Definition apart (pkts : list dsp_Packet) : Prop :=
  forall i j a b,
    pkts !! i = Some a -> pkts !! j = Some b -> i <> j ->
    separate (Data a) (Data b).

(** * Properties *)

(** ** Integers *)

Lemma wrap_in_range z : Int.in_range z -> Int.wrap z = z.
Proof.
  unfold Int.in_range, Int.min_int, Int.max_int, Int.wrap. intros Hz.
  rewrite Z.mod_small; lia.
Qed.

Lemma wrap_range z : Int.in_range (Int.wrap z).
Proof.
  unfold Int.in_range, Int.min_int, Int.max_int, Int.wrap.
  pose proof (Z.mod_pos_bound (z + 2 ^ 63) (2 ^ 64) ltac:(lia)). lia.
Qed.

Lemma wrap_congr a b :
  a mod 2 ^ 64 = b mod 2 ^ 64 -> Int.wrap a = Int.wrap b.
Proof.
  intros Hab. unfold Int.wrap. f_equal.
  rewrite (Z.add_mod a), (Z.add_mod b) by lia. by rewrite Hab.
Qed.

Lemma wrap_mod a : Int.wrap a mod 2 ^ 64 = a mod 2 ^ 64.
Proof.
  unfold Int.wrap.
  rewrite <- (Z.add_0_r (a mod 2 ^ 64)).
  replace ((a + 2 ^ 63) mod 2 ^ 64 - 2 ^ 63)
    with ((a + 2 ^ 63) mod 2 ^ 64 + - 2 ^ 63) by lia.
  rewrite Z.add_mod_idemp_l by lia.
  replace (a + 2 ^ 63 + - 2 ^ 63) with a by lia. by rewrite Z.add_0_r.
Qed.

Lemma wrap_add_r a b : Int.wrap (a + Int.wrap b) = Int.wrap (a + b).
Proof.
  apply wrap_congr. rewrite Z.add_mod by lia. rewrite wrap_mod.
  by rewrite <- Z.add_mod by lia.
Qed.

Lemma wrap_mul_l a b : Int.wrap (Int.wrap a * b) = Int.wrap (a * b).
Proof.
  apply wrap_congr. rewrite Z.mul_mod by lia. rewrite wrap_mod.
  by rewrite <- Z.mul_mod by lia.
Qed.

(** ** The results of fallible steps *)

Lemma bind_Ok {A B} (m : Result A) (f : A -> Result B) b :
  m ≫= f = Ok b -> exists a, m = Ok a /\ f a = Ok b.
Proof. destruct m as [a|e]; [eauto | discriminate]. Qed.

Lemma bind_Ok_l {A B} (a : A) (f : A -> Result B) : Ok a ≫= f = f a.
Proof. reflexivity. Qed.

Lemma index_Ok {A} (l : list A) i x :
  index l i = Ok x <-> 0 <= i /\ l !! Z.to_nat i = Some x.
Proof.
  unfold index. case_decide.
  - destruct (l !! Z.to_nat i) eqn:E; split; intros;
      try discriminate; simplify_eq; intuition congruence.
  - split; [discriminate | lia].
Qed.


(** ** The bit-order normalizer *)

Lemma SwapBitOrder_reverses b : bits (SwapBitOrder b) = reverse (bits b).
Proof. destruct b; vm_compute; reflexivity. Qed.

(** C8: reversing the bit order twice gives the byte back; the byte
    0b10110000 (0xB0) becomes 0b00001101 (0x0D); and bit 7 is exchanged with
    bit 0, 6 with 1, 5 with 2, 4 with 3: the bits of the result, from bit 0
    up, are those of the argument from bit 7 down. *)
Theorem SwapBitOrder_involution :
  (forall b, SwapBitOrder (SwapBitOrder b) = b) /\
  SwapBitOrder (byte_of_Z 0xB0) = byte_of_Z 0x0D /\
  (forall b, bits (SwapBitOrder b) = reverse (bits b)).
Proof.
  split; [| split].
  - intros b. destruct b; vm_compute; reflexivity.
  - vm_compute. reflexivity.
  - apply SwapBitOrder_reverses.
Qed.

Section Sequencer.
Context {crc_CRC rand_Source : Type} {C : Collaborators crc_CRC rand_Source}.
Implicit Types p : Parser crc_CRC.
Implicit Types st : parse_state crc_CRC.
Implicit Types g : rand_Source.

(** ** Construction *)

Lemma NewParser_Ok symbolLength id g :
  exists i g',
    rand_draw 9 g = (i, g') /\
    NewParser symbolLength id g =
      Ok (mkParser (dsp_NewDemodulator (NewPacketConfig symbolLength))
            (crc_NewCRC "CCITT-16" 0 0x1021 0)
            (NewPacketConfig symbolLength) id
            (Int.add (3000 * Microsecond)
               (Int.mul (Int.mul id 62500) Microsecond))
            9 channel_table i hop_table 0 ∅, g').
Proof.
  destruct (rand_draw 9 g) as [i g'] eqn:E. exists i, g'. split; [done|].
  unfold NewParser, rand_Intn. simpl.
  change (Z.of_nat 9) with 9. rewrite E. reflexivity.
Qed.

(** C9: the dwell time [NewParser] computes is 3000 microseconds plus [id]
    times 62500 microseconds, whatever the symbol length and the random
    source are. As a [time.Duration] the sum is taken in 64-bit arithmetic;
    it is the exact number of nanoseconds whenever that number is a
    [time.Duration]. *)
Theorem NewParser_DwellTime symbolLength id g :
  exists p g',
    NewParser symbolLength id g = Ok (p, g') /\
    ID p = id /\
    DwellTime p = Int.wrap (3000 * Microsecond + id * 62500 * Microsecond) /\
    (Int.in_range (3000 * Microsecond + id * 62500 * Microsecond) ->
     DwellTime p = 3000 * Microsecond + id * 62500 * Microsecond).
Proof.
  destruct (NewParser_Ok symbolLength id g) as (i & g' & _ & ->).
  eexists _, _. split; [reflexivity|]. simpl.
  assert (Hd : Int.add (3000 * Microsecond)
                 (Int.mul (Int.mul id 62500) Microsecond)
               = Int.wrap (3000 * Microsecond + id * 62500 * Microsecond)).
  { unfold Int.add, Int.mul. by rewrite wrap_mul_l, wrap_add_r. }
  split; [done|]. split; [done|].
  intros Hr. rewrite Hd. by apply wrap_in_range.
Qed.

(** ** Hop transitions *)

Lemma hop_inv p h p' :
  hop p = Ok (h, p') ->
  exists ch fq,
    index (hopPattern p) (hopIdx p) = Ok ch /\
    index (channels p) ch = Ok fq /\
    p' = match channelFreqErr p !! ch with
         | Some freqErr => set_currentFreqErr freqErr p
         | None => p
         end /\
    h = mkHop ch fq (currentFreqErr p').
Proof.
  unfold hop. intros Hh. apply bind_Ok in Hh as (ch & Hch & Hh).
  apply bind_Ok in Hh as (fq & Hfq & Hh). rewrite Hch in Hh. simpl in Hh.
  exists ch, fq. by simplify_eq.
Qed.

Lemma hop_total p ch fq :
  index (hopPattern p) (hopIdx p) = Ok ch ->
  index (channels p) ch = Ok fq ->
  exists h p', hop p = Ok (h, p') /\ ChannelIdx h = ch /\ ChannelFreq h = fq.
Proof.
  intros Hch Hfq. unfold hop. rewrite Hch. simpl. rewrite Hfq. simpl.
  eexists _, _. split; [reflexivity|]. done.
Qed.

Lemma hop_hop_frame p h p' :
  hop p = Ok (h, p') -> hop_frame p p' /\ hopIdx p' = hopIdx p.
Proof.
  intros (ch & fq & _ & _ & -> & _)%hop_inv.
  unfold hop_frame. by destruct (channelFreqErr p !! ch).
Qed.

Lemma NextHop_inv p h p' :
  NextHop p = Ok (h, p') ->
  channelCount p <> 0 /\
  hop (set_hopIdx (Int.rem (Int.add (hopIdx p) 1) (channelCount p)) p) = Ok (h, p').
Proof. unfold NextHop. by case_decide. Qed.

Lemma RandHop_inv p g h p' g' :
  RandHop p g = Ok (h, p', g') ->
  0 < channelCount p /\
  exists i, rand_draw (channelCount p) g = (i, g') /\
            hop (set_hopIdx i p) = Ok (h, p').
Proof.
  unfold RandHop, rand_Intn. case_decide; [discriminate|]. simpl.
  destruct (rand_draw (channelCount p) g) as [i g1] eqn:E.
  destruct (hop (set_hopIdx i p)) as [[h1 p1]|] eqn:Eh; [|discriminate].
  simpl. intros. simplify_eq. split; [lia|]. by exists i.
Qed.





Lemma hop_table_lookup i :
  0 <= i < 9 -> hop_table !! Z.to_nat i = Some (pattern_at i).
Proof.
  intros Hi. unfold pattern_at. rewrite Z.mod_small by lia.
  assert (Hc : i = 0 \/ i = 1 \/ i = 2 \/ i = 3 \/ i = 4 \/ i = 5 \/
               i = 6 \/ i = 7 \/ i = 8) by lia.
  destruct Hc as [->|[->|[->|[->|[->|[->|[->|[->| ->]]]]]]]]; reflexivity.
Qed.

Lemma pattern_at_range i : 0 <= pattern_at i < 9.
Proof.
  unfold pattern_at.
  pose proof (Z.mod_pos_bound i 9 ltac:(lia)) as Hi.
  assert (Hc : i mod 9 = 0 \/ i mod 9 = 1 \/ i mod 9 = 2 \/ i mod 9 = 3 \/
               i mod 9 = 4 \/ i mod 9 = 5 \/ i mod 9 = 6 \/ i mod 9 = 7 \/
               i mod 9 = 8) by lia.
  destruct Hc as [->|[->|[->|[->|[->|[->|[->|[->| ->]]]]]]]]; simpl; lia.
Qed.

Lemma channel_table_lookup c :
  0 <= c < 9 -> is_Some (channel_table !! Z.to_nat c).
Proof.
  intros Hc. apply lookup_lt_is_Some. simpl. lia.
Qed.

(** On the tables of [NewParser], [hop] succeeds at every valid index. *)
Lemma hop_Ok_tables p :
  tables_ok p -> 0 <= hopIdx p < 9 ->
  exists h p', hop p = Ok (h, p') /\ ChannelIdx h = pattern_at (hopIdx p).
Proof.
  intros (Hc & Hn & Hp) Hi.
  pose proof (pattern_at_range (hopIdx p)) as Hr.
  destruct (channel_table_lookup _ Hr) as [fq Hfq].
  destruct (hop_total p (pattern_at (hopIdx p)) fq) as (h & p' & Hh & Hch & _).
  - apply index_Ok. rewrite Hp. split; [lia|]. by apply hop_table_lookup.
  - apply index_Ok. rewrite Hc. split; [lia | done].
  - eauto.
Qed.

Lemma tables_ok_frame p p' : hop_frame p p' -> tables_ok p -> tables_ok p'.
Proof. unfold hop_frame, tables_ok. intuition congruence. Qed.

Lemma NextHop_Ok_tables p :
  tables_ok p -> hopIdx_ok p ->
  exists h p',
    NextHop p = Ok (h, p') /\ tables_ok p' /\
    hopIdx p' = (hopIdx p + 1) mod 9 /\
    ChannelIdx h = pattern_at (hopIdx p + 1).
Proof.
  intros Ht Hi. pose proof Ht as (Hc & Hn & Hp).
  unfold hopIdx_ok in Hi. rewrite Hn in Hi.
  unfold NextHop. rewrite Hn. case_decide; [lia|].
  assert (Hr : Int.rem (Int.add (hopIdx p) 1) 9 = (hopIdx p + 1) mod 9).
  { unfold Int.rem, Int.add. rewrite wrap_in_range.
    - apply Z.rem_mod_nonneg; lia.
    - unfold Int.in_range, Int.min_int, Int.max_int. lia. }
  rewrite Hr.
  pose proof (Z.mod_pos_bound (hopIdx p + 1) 9 ltac:(lia)) as Hb.
  destruct (hop_Ok_tables (set_hopIdx ((hopIdx p + 1) mod 9) p))
    as (h & p' & Hh & Hch); [done | done |].
  exists h, p'. split; [done|].
  apply hop_hop_frame in Hh as Hf. destruct Hf as [Hf Hidx].
  split; [by eapply tables_ok_frame|]. split; [done|].
  rewrite Hch. simpl. unfold pattern_at. by rewrite Z.mod_mod by lia.
Qed.

Lemma rotate_Permutation {A} n (l : list A) : rotate n l ≡ₚ l.
Proof. unfold rotate. rewrite Permutation_app_comm. by rewrite take_drop. Qed.

Lemma pattern_at_shift i k :
  pattern_at ((i + 1) mod 9 + k) = pattern_at (i + (1 + k)).
Proof.
  unfold pattern_at. rewrite Z.add_mod_idemp_l by lia.
  by rewrite Z.add_assoc.
Qed.

(** The channels the next [n] calls to [NextHop] report. *)
Lemma NextHops_spec n : forall p,
  tables_ok p -> hopIdx_ok p ->
  exists hs p',
    NextHops n p = Ok (hs, p') /\ tables_ok p' /\ hopIdx_ok p' /\
    hopIdx p' = (hopIdx p + Z.of_nat n) mod 9 /\
    ChannelIdx <$> hs =
      (fun k => pattern_at (hopIdx p + Z.of_nat k)) <$> seq 1 n.
Proof.
  induction n as [|n IH]; intros p Ht Hi.
  - exists [], p. split; [done|]. split; [done|]. split; [done|].
    split; [|done]. destruct Ht as (_ & Hn & _). unfold hopIdx_ok in Hi.
    rewrite Z.add_0_r, Z.mod_small; lia.
  - destruct (NextHop_Ok_tables p Ht Hi) as (h & p1 & Hh & Ht1 & Hi1 & Hch).
    assert (Hok1 : hopIdx_ok p1).
    { destruct Ht1 as (_ & Hn1 & _). unfold hopIdx_ok. rewrite Hn1, Hi1.
      apply Z.mod_pos_bound. lia. }
    destruct (IH p1 Ht1 Hok1) as (hs & p2 & Hhs & Ht2 & Hok2 & Hi2 & Hl).
    exists (h :: hs), p2. split.
    { simpl. rewrite Hh. simpl. rewrite Hhs. reflexivity. }
    split; [done|]. split; [done|]. split.
    { rewrite Hi2, Hi1. rewrite Z.add_mod_idemp_l by lia. f_equal. lia. }
    change (seq 1 (S n)) with (1%nat :: seq 2 n).
    rewrite !fmap_cons, Hch, Hl, <- (fmap_S_seq 1), <- list_fmap_compose.
    f_equal. apply list_fmap_ext. intros _ k _. simpl. rewrite Hi1.
    rewrite pattern_at_shift. f_equal. lia.
Qed.

Lemma pattern_at_cycle i :
  0 <= i < 9 ->
  (fun k => pattern_at (i + Z.of_nat k)) <$> seq 1 9
    = rotate (S (Z.to_nat i)) hop_table.
Proof.
  intros Hi.
  assert (Hc : i = 0 \/ i = 1 \/ i = 2 \/ i = 3 \/ i = 4 \/ i = 5 \/
               i = 6 \/ i = 7 \/ i = 8) by lia.
  destruct Hc as [->|[->|[->|[->|[->|[->|[->|[->| ->]]]]]]]]; reflexivity.
Qed.

(** C4: on a receiver made by [NewParser], at any hop index, [NextHop]
    moves the index to its successor modulo the channel count and describes
    the channel at the new index; nine successive calls report the nine
    entries of the pattern [0,4,8,1,5,3,6,2,7] once each, in the cyclic order
    of the pattern starting after the index, and come back to the index they
    started from, so the next nine calls report the same channels again. *)
Theorem NextHop_cycle p :
  tables_ok p -> hopIdx_ok p ->
  (exists h p1,
     NextHop p = Ok (h, p1) /\
     hopIdx p1 = (hopIdx p + 1) mod channelCount p /\
     hop (set_hopIdx (hopIdx p1) p) = Ok (h, p1)) /\
  exists hs p',
    NextHops 9 p = Ok (hs, p') /\
    ChannelIdx <$> hs = rotate (S (Z.to_nat (hopIdx p))) hop_table /\
    ChannelIdx <$> hs ≡ₚ hop_table /\
    NoDup (ChannelIdx <$> hs) /\
    hopIdx p' = hopIdx p /\
    exists hs' p'',
      NextHops 9 p' = Ok (hs', p'') /\
      ChannelIdx <$> hs' = ChannelIdx <$> hs.
Proof.
  intros Ht Hi. pose proof Ht as (_ & Hn & _).
  pose proof Hi as Hi9. unfold hopIdx_ok in Hi9. rewrite Hn in Hi9.
  split.
  { destruct (NextHop_Ok_tables p Ht Hi) as (h & p1 & Hh & _ & Hi1 & _).
    exists h, p1. rewrite Hn. split; [done|]. split; [done|].
    apply NextHop_inv in Hh as [_ Hh]. rewrite Hi1.
    rewrite Hn in Hh. unfold Int.rem, Int.add in Hh.
    rewrite wrap_in_range in Hh
      by (unfold Int.in_range, Int.min_int, Int.max_int; lia).
    by rewrite Z.rem_mod_nonneg in Hh by lia. }
  destruct (NextHops_spec 9 p Ht Hi) as (hs & p' & Hhs & Ht' & Hi' & Hidx & Hl).
  assert (Hback : hopIdx p' = hopIdx p).
  { rewrite Hidx. change (Z.of_nat 9) with 9.
    rewrite <- (Z.mul_1_l 9) at 1. rewrite Z.mod_add by lia.
    apply Z.mod_small. lia. }
  rewrite pattern_at_cycle in Hl by done.
  exists hs, p'. split; [done|]. split; [done|].
  split; [rewrite Hl; apply rotate_Permutation|].
  split.
  { rewrite Hl, rotate_Permutation.
    apply (bool_decide_unpack (NoDup hop_table)). by vm_compute. }
  split; [done|].
  destruct (NextHops_spec 9 p' Ht' Hi') as (hs' & p'' & Hhs' & _ & _ & _ & Hl').
  exists hs', p''. split; [done|].
  rewrite Hl', Hback, pattern_at_cycle by done. by rewrite Hl.
Qed.

End Sequencer.

(** ** The memory of the payloads *)

Lemma length_load h s : length (load h s) = len s.
Proof. unfold load. by rewrite length_fmap, length_seq. Qed.

Lemma mem_read_store h a b x :
  mem_read (store h a b) x = if decide (x = a) then b else mem_read h x.
Proof.
  unfold mem_read, store. case_decide as Hx.
  - subst x. by rewrite lookup_insert_eq.
  - by rewrite lookup_insert_ne.
Qed.

Lemma swap_payload_at h s a :
  mem_read (swap_payload h s) a =
    if decide (ptr s <= a < ptr s + len s)%nat
    then SwapBitOrder (mem_read h a) else mem_read h a.
Proof.
  unfold swap_payload. generalize (len s) as n. intros n. revert a.
  induction n as [|n IH]; intros a.
  - simpl. case_decide; [lia | done].
  - rewrite seq_S, foldl_app. simpl. rewrite mem_read_store.
    case_decide as Ha.
    + subst a. rewrite IH. rewrite decide_False by lia.
      by rewrite decide_True by lia.
    + rewrite IH. repeat case_decide; (done || lia).
Qed.

(** Reversing a payload in place leaves in its window the reversal of the
    bytes that were there. *)
Lemma load_swap_payload h s :
  load (swap_payload h s) s = SwapBitOrder <$> load h s.
Proof.
  unfold load. rewrite <- list_fmap_compose. apply list_fmap_ext.
  intros i a [-> Hi]%lookup_seq. simpl. rewrite swap_payload_at.
  by rewrite decide_True by lia.
Qed.

(** ... and leaves every other window as it was. *)
Lemma load_swap_separate h s t :
  separate t s -> load (swap_payload h s) t = load h t.
Proof.
  intros Hsep. unfold load. apply list_fmap_ext.
  intros i a [-> Hi]%lookup_seq. rewrite swap_payload_at.
  rewrite decide_False; [done|]. apply Hsep. unfold in_window. lia.
Qed.

Lemma slice_from_Ok {A} (l : list A) lo :
  0 <= lo <= Z.of_nat (length l) -> slice_from l lo = Ok (drop (Z.to_nat lo) l).
Proof. intros Hlo. unfold slice_from. by rewrite decide_True. Qed.

Lemma slice_from_Panic {A} (l : list A) lo :
  Z.of_nat (length l) < lo -> slice_from l lo = Panic SliceBoundsOutOfRange.
Proof. intros Hlo. unfold slice_from. by rewrite decide_False by lia. Qed.

(** ** Building a message *)

Lemma copy_full {A} (dst src : list A) :
  length dst = length src -> copy dst src = src.
Proof.
  intros Hlen. unfold copy.
  rewrite take_ge, drop_ge by lia. apply app_nil_r.
Qed.

Lemma NewMessage_Ok h pkt a0 a1 b0 b1 b2 rest :
  load h (Data pkt) = a0 :: a1 :: b0 :: b1 :: b2 :: rest ->
  NewMessage h pkt =
    Ok (Message.mk (Idx pkt) (b0 :: b1 :: b2 :: rest)
          (band b0 0xF) (bshr b0 4) b1 b2).
Proof.
  intros Hl. pose proof (length_load h (Data pkt)) as Hlen.
  rewrite Hl in Hlen. simpl in Hlen. unfold NewMessage.
  rewrite <- Hlen, Hl. unfold make_bytes. rewrite decide_True by lia.
  rewrite slice_from_Ok by (simpl; lia). rewrite !bind_Ok_l.
  change (drop (Z.to_nat 2) (a0 :: a1 :: b0 :: b1 :: b2 :: rest))
    with (b0 :: b1 :: b2 :: rest).
  rewrite copy_full by (rewrite length_replicate; simpl; lia).
  reflexivity.
Qed.

Lemma NewMessage_short h pkt :
  (len (Data pkt) < 5)%nat -> is_Panic (NewMessage h pkt).
Proof.
  intros Hshort. pose proof (length_load h (Data pkt)) as Hlen.
  unfold NewMessage, is_Panic.
  destruct (load h (Data pkt)) as [|a0 [|a1 [|b0 [|b1 [|b2 rest]]]]] eqn:El;
    simpl in Hlen; rewrite <- Hlen; try (vm_compute; eauto; fail).
  lia.
Qed.

Lemma NewMessage_short_index h pkt :
  (2 <= len (Data pkt) < 5)%nat -> NewMessage h pkt = Panic IndexOutOfRange.
Proof.
  intros Hshort. pose proof (length_load h (Data pkt)) as Hlen.
  unfold NewMessage.
  destruct (load h (Data pkt)) as [|a0 [|a1 [|b0 [|b1 [|b2 rest]]]]] eqn:El;
    simpl in Hlen; rewrite <- Hlen; try reflexivity; simpl in *; lia.
Qed.

Lemma NewMessage_Ok_iff h pkt :
  is_Ok (NewMessage h pkt) <-> (5 <= len (Data pkt))%nat.
Proof.
  split.
  - intros [m Hm]. destruct (decide (5 <= len (Data pkt))%nat); [done|].
    destruct (NewMessage_short h pkt) as [e He]; [lia | congruence].
  - intros Hlen. pose proof (length_load h (Data pkt)) as Hl.
    destruct (load h (Data pkt)) as [|a0 [|a1 [|b0 [|b1 [|b2 rest]]]]] eqn:El;
      simpl in Hl; try lia.
    eexists. by eapply NewMessage_Ok.
Qed.

Lemma NewMessage_inv h pkt m :
  NewMessage h pkt = Ok m ->
  exists a0 a1 b0 b1 b2 rest,
    load h (Data pkt) = a0 :: a1 :: b0 :: b1 :: b2 :: rest /\
    m = Message.mk (Idx pkt) (b0 :: b1 :: b2 :: rest)
          (band b0 0xF) (bshr b0 4) b1 b2.
Proof.
  intros Hm. assert (Hlen : (5 <= len (Data pkt))%nat).
  { apply (NewMessage_Ok_iff h). by exists m. }
  pose proof (length_load h (Data pkt)) as Hl.
  destruct (load h (Data pkt)) as [|a0 [|a1 [|b0 [|b1 [|b2 rest]]]]] eqn:El;
    simpl in Hl; try lia.
  exists a0, a1, b0, b1, b2, rest. split; [done|].
  rewrite (NewMessage_Ok _ _ _ _ _ _ _ _ El) in Hm. by simplify_eq.
Qed.

Lemma band_low_nibble b : Z_of_byte (band b 0xF) = Z.land (Z_of_byte b) 0xF.
Proof. destruct b; reflexivity. Qed.

Lemma bshr_high_nibble b : Z_of_byte (bshr b 4) = Z.shiftr (Z_of_byte b) 4.
Proof. destruct b; reflexivity. Qed.

(** ** One packet of [Parse] *)

Section DecoderProps.
Context {crc_CRC rand_Source : Type} {C : Collaborators crc_CRC rand_Source}.
Implicit Types p : Parser crc_CRC.
Implicit Types st : parse_state crc_CRC.
Implicit Types g : rand_Source.

Lemma Parse_track_inv freqError p p' :
  Parse_track freqError p = Ok p' ->
  exists ch,
    index (hopPattern p) (hopIdx p) = Ok ch /\
    p' = set_currentFreqErr (Int.add (currentFreqErr p) freqError)
           (set_channelFreqErr
              (<[ch := Int.add (currentFreqErr p) freqError]> (channelFreqErr p))
              p).
Proof.
  unfold Parse_track. intros Ht. apply bind_Ok in Ht as (ch & Hch & Ht).
  exists ch. by simplify_eq.
Qed.

Lemma Parse_track_frame freqError p p' :
  Parse_track freqError p = Ok p' -> parse_frame p p'.
Proof. intros (ch & _ & ->)%Parse_track_inv. by unfold parse_frame. Qed.

(** A duplicate is skipped after its bits were reversed. *)
Lemma Parse_body_duplicate st pkt :
  ~ fresh st pkt ->
  Parse_body st pkt =
    Ok (mkState (swap_payload (mem st) (Data pkt)) (seen st) (parser st)
          (msgs st) (checksummed st)).
Proof.
  unfold fresh, dedup_key, Parse_body. intros Hd.
  rewrite load_swap_payload.
  destruct (default false (seen st !! (SwapBitOrder <$> load (mem st) (Data pkt))));
    [done | by destruct Hd].
Qed.

(** A fresh packet shorter than the prefix stops [Parse]. *)
Lemma Parse_body_no_prefix st pkt :
  fresh st pkt -> (len (Data pkt) < 2)%nat ->
  Parse_body st pkt = Panic SliceBoundsOutOfRange.
Proof.
  unfold fresh, dedup_key, Parse_body. intros Hf Hlen.
  rewrite load_swap_payload, Hf.
  rewrite slice_from_Panic; [done|].
  rewrite length_fmap, length_load. lia.
Qed.

(** A fresh packet whose checksum is not zero is recorded and skipped. *)
Lemma Parse_body_reject st pkt :
  fresh st pkt -> (2 <= len (Data pkt))%nat ->
  crc_Checksum (CRC (parser st)) (drop 2 (dedup_key (mem st) pkt)) <> 0 ->
  Parse_body st pkt =
    Ok (mkState (swap_payload (mem st) (Data pkt))
          (<[dedup_key (mem st) pkt := true]> (seen st)) (parser st) (msgs st)
          (checksummed st ++ [drop 2 (dedup_key (mem st) pkt)])).
Proof.
  unfold fresh, dedup_key, Parse_body. intros Hf Hlen Hsum.
  rewrite load_swap_payload, Hf.
  rewrite slice_from_Ok by (rewrite length_fmap, length_load; lia).
  rewrite bind_Ok_l. change (Z.to_nat 2) with 2%nat.
  by rewrite decide_True.
Qed.

(** A fresh packet whose checksum is zero goes through the measurement, the
    tracker and [NewMessage]. *)
Lemma Parse_body_accept st pkt :
  fresh st pkt -> (2 <= len (Data pkt))%nat ->
  crc_Checksum (CRC (parser st)) (drop 2 (dedup_key (mem st) pkt)) = 0 ->
  Parse_body st pkt =
    let p := parser st in
    let h := swap_payload (mem st) (Data pkt) in
    tail ← slice_range (Discriminated (Demodulator p))
             (Int.add (Idx pkt) (Int.mul 8 (SymbolLength (Cfg p))))
             (Int.add (Idx pkt) (Int.mul 24 (SymbolLength (Cfg p))));
    p' ← Parse_track (freq_error (Cfg p) (tail_mean tail)) p;
    m ← NewMessage h pkt;
    Ok (mkState h (<[dedup_key (mem st) pkt := true]> (seen st)) p'
          (msgs st ++ [m])
          (checksummed st ++ [drop 2 (dedup_key (mem st) pkt)])).
Proof.
  unfold fresh, dedup_key, Parse_body. intros Hf Hlen Hsum.
  rewrite load_swap_payload, Hf.
  rewrite slice_from_Ok by (rewrite length_fmap, length_load; lia).
  rewrite bind_Ok_l. change (Z.to_nat 2) with 2%nat.
  by rewrite decide_False by (intros Hne; by apply Hne).
Qed.

Lemma Parse_body_inv st pkt st' :
  Parse_body st pkt = Ok st' -> outcome st pkt st'.
Proof.
  intros Hb.
  assert (Hdec : Decision (fresh st pkt)) by (unfold fresh; apply _).
  destruct Hdec as [Hf|Hf].
  - destruct (decide (2 <= len (Data pkt))%nat) as [Hlen|Hlen].
    + destruct (decide (crc_Checksum (CRC (parser st))
                          (drop 2 (dedup_key (mem st) pkt)) = 0)) as [Hs|Hs].
      * rewrite Parse_body_accept in Hb by done. cbv zeta in Hb.
        apply bind_Ok in Hb as (tail & Htail & Hb).
        apply bind_Ok in Hb as (p' & Hp' & Hb).
        apply bind_Ok in Hb as (m & Hm & Hb).
        eapply out_decoded; eauto. by simplify_eq.
      * rewrite Parse_body_reject in Hb by done.
        eapply out_rejected; eauto. by simplify_eq.
    + rewrite Parse_body_no_prefix in Hb by (done || lia). discriminate.
  - rewrite Parse_body_duplicate in Hb by done.
    eapply out_duplicate; eauto. by simplify_eq.
Qed.

Lemma outcome_frame st pkt st' :
  outcome st pkt st' -> parse_frame (parser st) (parser st').
Proof.
  destruct 1 as [_ -> | _ _ _ -> | tail p' m _ _ _ _ Ht _ ->]; simpl;
    [by unfold parse_frame | by unfold parse_frame |].
  by eapply Parse_track_frame.
Qed.

Lemma outcome_seen_mono st pkt st' k :
  outcome st pkt st' -> seen st !! k = Some true -> seen st' !! k = Some true.
Proof.
  destruct 1 as [_ -> | _ _ _ -> | tail p' m _ _ _ _ _ _ ->]; simpl; [done| |];
    intros Hk; (destruct (decide (dedup_key (mem st) pkt = k)) as [->|Hne];
      [by rewrite lookup_insert_eq | by rewrite lookup_insert_ne]).
Qed.

(** Once [Parse] is past a packet, the packet's key is in [seen]. *)
Lemma outcome_seen_key st pkt st' :
  outcome st pkt st' -> seen st' !! dedup_key (mem st) pkt = Some true.
Proof.
  destruct 1 as [Hd -> | _ _ _ -> | tail p' m _ _ _ _ _ _ ->]; simpl;
    [| by rewrite lookup_insert_eq | by rewrite lookup_insert_eq].
  unfold fresh in Hd.
  destruct (seen st !! dedup_key (mem st) pkt) as [[]|]; simpl in Hd; done.
Qed.

Lemma Parse_loop_app st l1 l2 :
  Parse_loop st (l1 ++ l2) = Parse_loop st l1 ≫= fun st1 => Parse_loop st1 l2.
Proof.
  revert st. induction l1 as [|pkt l1 IH]; intros st; [done|].
  simpl. destruct (Parse_body st pkt) as [st1|e]; [apply IH | done].
Qed.

Lemma Parse_loop_cons st pkt rest st1 :
  Parse_body st pkt = Ok st1 ->
  Parse_loop st (pkt :: rest) = Parse_loop st1 rest.
Proof. intros Hb. simpl. by rewrite Hb. Qed.

Lemma Parse_loop_frame st pkts st' :
  Parse_loop st pkts = Ok st' -> parse_frame (parser st) (parser st').
Proof.
  revert st. induction pkts as [|pkt rest IH]; intros st Hl.
  - simpl in Hl. simplify_eq. by unfold parse_frame.
  - simpl in Hl. apply bind_Ok in Hl as (st1 & Hb & Hl).
    apply Parse_body_inv, outcome_frame in Hb. apply IH in Hl.
    unfold parse_frame in *. intuition congruence.
Qed.

Lemma Parse_loop_seen_mono st pkts st' k :
  Parse_loop st pkts = Ok st' ->
  seen st !! k = Some true -> seen st' !! k = Some true.
Proof.
  revert st. induction pkts as [|pkt rest IH]; intros st Hl Hk.
  - simpl in Hl. by simplify_eq.
  - simpl in Hl. apply bind_Ok in Hl as (st1 & Hb & Hl).
    eapply IH; [done|]. eapply outcome_seen_mono; [|done].
    by apply Parse_body_inv.
Qed.

(** The messages of a run are built, in order, from some of its packets. *)
Lemma Parse_loop_order st pkts st' :
  Parse_loop st pkts = Ok st' ->
  exists new kept,
    msgs st' = msgs st ++ new /\ sublist kept pkts /\
    Forall2 (fun m pkt => exists h, NewMessage h pkt = Ok m) new kept.
Proof.
  revert st. induction pkts as [|pkt rest IH]; intros st Hl.
  - simpl in Hl. simplify_eq. exists [], []. by rewrite app_nil_r.
  - simpl in Hl. apply bind_Ok in Hl as (st1 & Hb & Hl).
    destruct (IH _ Hl) as (new & kept & Hm & Hs & Hf).
    apply Parse_body_inv in Hb.
    destruct Hb as [_ -> | _ _ _ -> | tail p' m _ _ _ _ _ Hn ->]; simpl in Hm.
    + exists new, kept. split; [done|]. split; [by apply sublist_cons | done].
    + exists new, kept. split; [done|]. split; [by apply sublist_cons | done].
    + exists (m :: new), (pkt :: kept). split.
      { by rewrite Hm, <- app_assoc. }
      split; [by apply sublist_skip|]. constructor; eauto.
Qed.

(** [Parse] reverses the payload of every packet it gets past, in place. *)
Lemma outcome_mem st pkt st' :
  outcome st pkt st' -> mem st' = swap_payload (mem st) (Data pkt).
Proof. by destruct 1 as [_ -> | _ _ _ -> | tail p' m _ _ _ _ _ _ ->]. Qed.

Lemma Parse_body_in_place st pkt st' :
  Parse_body st pkt = Ok st' ->
  load (mem st') (Data pkt) = dedup_key (mem st) pkt.
Proof.
  intros Hb. apply Parse_body_inv, outcome_mem in Hb. rewrite Hb.
  apply load_swap_payload.
Qed.

(** A window that shares no address with the packets of a run holds the
    same bytes after the run. *)
Lemma Parse_loop_load_separate t pkts : forall st st',
  Parse_loop st pkts = Ok st' ->
  Forall (fun q => separate t (Data q)) pkts ->
  load (mem st') t = load (mem st) t.
Proof.
  induction pkts as [|pkt rest IH]; intros st st' Hl Hsep.
  - simpl in Hl. by simplify_eq.
  - simpl in Hl. apply bind_Ok in Hl as (st1 & Hb & Hl).
    apply Forall_cons in Hsep as [Hpkt Hrest].
    rewrite (IH _ _ Hl Hrest).
    apply Parse_body_inv, outcome_mem in Hb. rewrite Hb.
    by apply load_swap_separate.
Qed.

Lemma Parse_body_seen st pkt :
  seen st !! dedup_key (mem st) pkt = Some true ->
  exists st',
    Parse_body st pkt = Ok st' /\
    msgs st' = msgs st /\ checksummed st' = checksummed st /\
    parser st' = parser st /\ seen st' = seen st.
Proof.
  intros Hseen. assert (Hdup : ~ fresh st pkt).
  { unfold fresh. by rewrite Hseen. }
  eexists. split; [by apply Parse_body_duplicate|]. done.
Qed.

(** ** The gates of [Parse] *)

(** C2: [Parse] runs the checksum on the payload of a packet without its
    first two bytes (every packet that is not a duplicate reaches that call);
    a packet whose checksum is not zero adds no message and leaves the
    receiver, hence the current error and the per-channel map, as they were,
    and the loop goes on with the packets after it; the messages [Parse]
    returns are built from packets of the batch, in the order of the
    batch. *)
Theorem Parse_checksum_gate :
  (forall st pkt st',
     fresh st pkt -> Parse_body st pkt = Ok st' ->
     checksummed st' = checksummed st ++ [drop 2 (dedup_key (mem st) pkt)]) /\
  (forall st0 l1 st1 pkt l2,
     Parse_loop st0 l1 = Ok st1 ->
     fresh st1 pkt -> (2 <= len (Data pkt))%nat ->
     crc_Checksum (CRC (parser st1)) (drop 2 (dedup_key (mem st1) pkt)) <> 0 ->
     exists st2,
       Parse_body st1 pkt = Ok st2 /\
       msgs st2 = msgs st1 /\ parser st2 = parser st1 /\
       Parse_loop st0 (l1 ++ pkt :: l2) = Parse_loop st2 l2) /\
  (forall p h pkts ms p' h',
     Parse p h pkts = Ok (ms, p', h') ->
     exists kept,
       sublist kept pkts /\
       Forall2 (fun m pkt => Message.Idx m = Idx pkt /\
                             exists h0, NewMessage h0 pkt = Ok m) ms kept).
Proof.
  split; [| split].
  - intros st pkt st' Hf Hb. apply Parse_body_inv in Hb.
    by destruct Hb as [Hd -> | _ _ _ -> | tail p' m _ _ _ _ _ _ ->].
  - intros st0 l1 st1 pkt l2 Hl1 Hf Hlen Hsum.
    eexists. split; [by apply Parse_body_reject|]. simpl.
    split; [done|]. split; [done|].
    rewrite Parse_loop_app, Hl1, bind_Ok_l.
    apply Parse_loop_cons. by apply Parse_body_reject.
  - intros p h pkts ms p' h' Hp. unfold Parse in Hp.
    apply bind_Ok in Hp as (st & Hl & Hp). simplify_eq.
    destruct (Parse_loop_order _ _ _ Hl) as (new & kept & Hm & Hs & Hf).
    simpl in Hm. subst new. exists kept. split; [done|].
    eapply Forall2_impl; [exact Hf|]. intros m pkt [h0 Hm0]. split; [|eauto].
    apply NewMessage_inv in Hm0 as (? & ? & ? & ? & ? & ? & _ & ->). done.
Qed.

(** C3: within one run of [Parse], when a packet's payload, once its bits
    are reversed, is the byte sequence that an earlier packet of the run had
    once its bits were reversed, the later packet is skipped: no message is
    added, [Checksum] is not called, the receiver is left as it was. The
    sample indices of the two packets play no part. [Parse] reverses a
    payload where it lies, so the bytes compared are those a packet holds
    when its turn comes; for two packets that lie apart from the packets
    before them, these are the bytes they hold when [Parse] is called, and
    equal payloads at the call make the later one a duplicate. *)
Theorem Parse_deduplicates :
  (forall st0 l1 (first : dsp_Packet) st1 st2 l2 st3 (second : dsp_Packet),
     Parse_loop st0 l1 = Ok st1 ->
     Parse_body st1 first = Ok st2 ->
     Parse_loop st2 l2 = Ok st3 ->
     dedup_key (mem st3) second = dedup_key (mem st1) first ->
     exists st4,
       Parse_body st3 second = Ok st4 /\
       msgs st4 = msgs st3 /\
       checksummed st4 = checksummed st3 /\
       parser st4 = parser st3 /\
       seen st4 = seen st3 /\
       forall l3,
         Parse_loop st0 (l1 ++ first :: l2 ++ second :: l3) = Parse_loop st4 l3) /\
  (forall p h l1 (first : dsp_Packet) l2 (second : dsp_Packet) st3,
     Parse_loop (Parse_init p h) (l1 ++ first :: l2) = Ok st3 ->
     Forall (fun q => separate (Data first) (Data q)) l1 ->
     Forall (fun q => separate (Data second) (Data q)) (l1 ++ first :: l2) ->
     load h (Data second) = load h (Data first) ->
     exists st4,
       Parse_body st3 second = Ok st4 /\
       msgs st4 = msgs st3 /\
       checksummed st4 = checksummed st3 /\
       parser st4 = parser st3).
Proof.
  assert (Hseen : forall st1 (first : dsp_Packet) st2 l2 st3,
            Parse_body st1 first = Ok st2 -> Parse_loop st2 l2 = Ok st3 ->
            seen st3 !! dedup_key (mem st1) first = Some true).
  { intros st1 first st2 l2 st3 Hp Hl2.
    eapply Parse_loop_seen_mono; [done|].
    by apply outcome_seen_key, Parse_body_inv. }
  split.
  - intros st0 l1 first st1 st2 l2 st3 second Hl1 Hp Hl2 Hkey.
    destruct (Parse_body_seen st3 second) as (st4 & Hb & Hm & Hc & Hq & Hs).
    { rewrite Hkey. by eapply Hseen. }
    exists st4. do 5 (split; [done|]). intros l3.
    rewrite Parse_loop_app, Hl1, bind_Ok_l.
    rewrite (Parse_loop_cons _ _ _ _ Hp).
    rewrite Parse_loop_app, Hl2, bind_Ok_l.
    by apply Parse_loop_cons.
  - intros p h l1 first l2 second st3 Hl Hfirst Hsecond Hsame.
    rewrite Parse_loop_app in Hl. apply bind_Ok in Hl as (st1 & Hl1 & Hl).
    simpl in Hl. apply bind_Ok in Hl as (st2 & Hp & Hl2).
    assert (Hl' : Parse_loop (Parse_init p h) (l1 ++ first :: l2) = Ok st3).
    { rewrite Parse_loop_app, Hl1, bind_Ok_l. simpl. by rewrite Hp, bind_Ok_l. }
    assert (Hkey : dedup_key (mem st3) second = dedup_key (mem st1) first).
    { unfold dedup_key.
      rewrite (Parse_loop_load_separate _ _ _ _ Hl' Hsecond).
      rewrite (Parse_loop_load_separate _ _ _ _ Hl1 Hfirst).
      simpl. by rewrite Hsame. }
    destruct (Parse_body_seen st3 second) as (st4 & Hb & Hm & Hc & Hq & _).
    { rewrite Hkey. by eapply Hseen. }
    by exists st4.
Qed.

(** C6: a packet that passes both gates adds one message; its payload is
    the packet's payload, bits reversed, without the first two bytes; its
    id is the low nibble of byte 0 of that payload, its sensor the high
    nibble, its wind speed byte 1, its wind direction byte 2; it keeps the
    sample index of the packet. A sensor code outside
    {2,4,5,6,7,8,9,0xA,0xE} is rendered as the text Unknown(0x..) with the
    code in upper-case hexadecimal, 0xF as Unknown(0xF): rendering is a total
    function. *)
Theorem Parse_message :
  (forall st pkt st',
     fresh st pkt ->
     crc_Checksum (CRC (parser st)) (drop 2 (dedup_key (mem st) pkt)) = 0 ->
     Parse_body st pkt = Ok st' ->
     exists m b0 b1 b2 rest,
       msgs st' = msgs st ++ [m] /\
       Message.Data m = drop 2 (dedup_key (mem st) pkt) /\
       Message.Data m = b0 :: b1 :: b2 :: rest /\
       Z_of_byte (Message.ID m) = Z.land (Z_of_byte b0) 0xF /\
       Z_of_byte (Message.Sensor m) = Z.shiftr (Z_of_byte b0) 4 /\
       Message.WindSpeed m = b1 /\
       Message.WindDirection m = b2 /\
       Message.Idx m = Idx pkt) /\
  (forall s : Sensor,
     s ∉ known_sensors -> Sensor_String s = "Unknown(0x" +:+ fmt_X s +:+ ")") /\
  Sensor_String (byte_of_Z 0xF) = "Unknown(0xF)".
Proof.
  split; [| split].
  - intros st pkt st' Hf Hsum Hb. apply Parse_body_inv in Hb.
    destruct Hb as [Hd _ | _ _ Hne _ | tail p' m _ _ _ _ _ Hm ->]; [done..|].
    apply NewMessage_inv in Hm as (a0 & a1 & b0 & b1 & b2 & rest & Hl & ->).
    rewrite load_swap_payload in Hl. fold (dedup_key (mem st) pkt) in Hl.
    exists (Message.mk (Idx pkt) (b0 :: b1 :: b2 :: rest)
              (band b0 0xF) (bshr b0 4) b1 b2), b0, b1, b2, rest.
    simpl. rewrite Hl, band_low_nibble, bshr_high_nibble. done.
  - intros s Hs. unfold Sensor_String.
    repeat (case_decide;
            [subst s; exfalso; apply Hs; unfold known_sensors;
             rewrite !elem_of_cons; tauto |]).
    reflexivity.
  - reflexivity.
Qed.

Lemma Parse_loop_total pkts : forall st,
  0 <= hopIdx (parser st) ->
  is_Some (hopPattern (parser st) !! Z.to_nat (hopIdx (parser st))) ->
  Forall (fun pkt =>
            (5 <= len (Data pkt))%nat /\
            is_Ok (slice_range (Discriminated (Demodulator (parser st)))
                     (Int.add (Idx pkt) (Int.mul 8 (SymbolLength (Cfg (parser st)))))
                     (Int.add (Idx pkt) (Int.mul 24 (SymbolLength (Cfg (parser st)))))))
         pkts ->
  is_Ok (Parse_loop st pkts).
Proof.
  induction pkts as [|pkt rest IH]; intros st Hi Hp Hall.
  - by exists st.
  - apply Forall_cons in Hall as [[Hlen [tail Htail]] Hall].
    assert (Hstep : exists st1, Parse_body st pkt = Ok st1).
    { assert (Hdec : Decision (fresh st pkt)) by (unfold fresh; apply _).
      destruct Hdec as [Hf|Hf]; [|rewrite Parse_body_duplicate by done; eauto].
      destruct (decide (crc_Checksum (CRC (parser st))
                          (drop 2 (dedup_key (mem st) pkt)) = 0)) as [Hs|Hs];
        [|rewrite Parse_body_reject by (done || lia); eauto].
      rewrite Parse_body_accept by (done || lia). cbv zeta.
      rewrite Htail, bind_Ok_l. unfold Parse_track.
      destruct Hp as [ch Hch].
      rewrite (proj2 (index_Ok _ _ ch)) by done. rewrite !bind_Ok_l.
      destruct (proj2 (NewMessage_Ok_iff (swap_payload (mem st) (Data pkt)) pkt) Hlen)
        as [m ->].
      rewrite bind_Ok_l. eauto. }
    destruct Hstep as [st1 Hb]. simpl. rewrite Hb, bind_Ok_l.
    apply Parse_body_inv, outcome_frame in Hb.
    destruct Hb as (Hd & _ & Hc & _ & _ & _ & _ & Hpat & Hidx).
    apply IH; rewrite ?Hd, ?Hc, ?Hpat, ?Hidx; done.
Qed.

(** C10: neither [Parse] nor [NewMessage] looks at the length of a payload.
    [NewMessage] returns exactly on payloads of five bytes or more. A packet
    of fewer than five bytes that is not a duplicate and passes the checksum
    stops [Parse] with a panic: below two bytes already at the slice that
    drops the prefix, otherwise, if not earlier, at the reads of bytes 0, 1
    and 2 in [NewMessage], which are out of range. With five bytes or more
    in every payload (and the tail of every packet inside the trace, and a
    valid hop index) [Parse] returns. *)
Theorem Parse_payload_length :
  (forall h pkt, is_Ok (NewMessage h pkt) <-> (5 <= len (Data pkt))%nat) /\
  (forall p h l1 st1 pkt l2,
     Parse_loop (Parse_init p h) l1 = Ok st1 ->
     fresh st1 pkt ->
     (len (Data pkt) < 5)%nat ->
     (len (Data pkt) < 2)%nat \/
       crc_Checksum (CRC (parser st1)) (drop 2 (dedup_key (mem st1) pkt)) = 0 ->
     is_Panic (Parse_body st1 pkt) /\
     is_Panic (Parse p h (l1 ++ pkt :: l2)) /\
     ((len (Data pkt) < 2)%nat ->
        Parse_body st1 pkt = Panic SliceBoundsOutOfRange) /\
     ((2 <= len (Data pkt))%nat ->
        NewMessage (swap_payload (mem st1) (Data pkt)) pkt
          = Panic IndexOutOfRange)) /\
  (forall p h pkts,
     0 <= hopIdx p ->
     is_Some (hopPattern p !! Z.to_nat (hopIdx p)) ->
     Forall (fun pkt =>
               (5 <= len (Data pkt))%nat /\
               is_Ok (slice_range (Discriminated (Demodulator p))
                        (Int.add (Idx pkt) (Int.mul 8 (SymbolLength (Cfg p))))
                        (Int.add (Idx pkt) (Int.mul 24 (SymbolLength (Cfg p))))))
            pkts ->
     is_Ok (Parse p h pkts)).
Proof.
  split; [apply NewMessage_Ok_iff | split].
  - intros p h l1 st1 pkt l2 Hl1 Hf Hshort Hgate.
    assert (Hbody : is_Panic (Parse_body st1 pkt)).
    { destruct (decide (len (Data pkt) < 2)%nat) as [Hlt|Hge].
      { rewrite Parse_body_no_prefix by done. by eexists. }
      destruct Hgate as [Hlt|Hsum]; [done|].
      rewrite Parse_body_accept by (done || lia). cbv zeta.
      destruct (slice_range _ _ _) as [tail|e]; [|by eexists].
      rewrite bind_Ok_l.
      destruct (Parse_track _ _) as [p'|e]; [|by eexists].
      rewrite bind_Ok_l.
      destruct (NewMessage_short (swap_payload (mem st1) (Data pkt)) pkt Hshort)
        as [e ->]. by eexists. }
    split; [done|]. split.
    { destruct Hbody as [e He]. exists e. unfold Parse.
      rewrite Parse_loop_app, Hl1, bind_Ok_l. simpl. by rewrite He. }
    split.
    + intros Hlt. by apply Parse_body_no_prefix.
    + intros Hge. apply NewMessage_short_index. lia.
  - intros p h pkts Hi Hp Hall.
    destruct (Parse_loop_total pkts (Parse_init p h) Hi Hp Hall) as [st Hst].
    unfold Parse. rewrite Hst. by eexists.
Qed.

(** ** The measurement of the frequency error *)

Lemma neg_min_int : Int.neg Int.min_int = Int.min_int.
Proof. reflexivity. Qed.

(** Discarding the fraction commutes with negation, also where the value
    does not fit. *)
Lemma int_of_float64_opp f :
  int_of_float64 (- f)%float = Int.neg (int_of_float64 f).
Proof.
  unfold int_of_float64. rewrite opp_spec.
  destruct (Prim2SF f) as [s| | |s m e]; simpl; try reflexivity.
  set (a := if 0 <=? e then Z.shiftl (Z.pos m) e else Z.shiftr (Z.pos m) (- e)).
  assert (Hc : forall z, Int.min_int <= z <= Int.max_int ->
                 (Int.min_int <= - z <= Int.max_int /\ Int.neg z = - z) \/
                 (z = Int.min_int /\ Int.neg z = Int.min_int)).
  { intros z Hz.
    destruct (decide (Int.min_int <= - z <= Int.max_int)) as [Hn|Hn].
    - left. split; [done|]. apply wrap_in_range. exact Hn.
    - right. unfold Int.min_int, Int.max_int in *.
      assert (z = - 2 ^ 63) as -> by lia. done. }
  destruct s; simpl; repeat case_decide; rewrite ?neg_min_int;
    try reflexivity;
    try (destruct (Hc a ltac:(done)) as [[? ->]|[? ->]];
         unfold Int.min_int, Int.max_int in *; lia);
    try (destruct (Hc (- a) ltac:(done)) as [[? ->]|[? ->]];
         unfold Int.min_int, Int.max_int in *; lia);
    unfold Int.min_int, Int.max_int in *; lia.
Qed.


Lemma omap_lookup_seq {A} (l : list A) n : forall a,
  (a + n <= length l)%nat -> omap (fun i => l !! i) (seq a n) = take n (drop a l).
Proof.
  induction n as [|n IH]; intros a Hlen; [done|].
  destruct (lookup_lt_is_Some_2 l a ltac:(lia)) as [x Hx].
  simpl. rewrite Hx, IH by lia.
  by rewrite (drop_S l x a Hx).
Qed.

Lemma slice_range_inv {A} (l : list A) lo hi t :
  slice_range l lo hi = Ok t ->
  0 <= lo /\ lo <= hi /\ hi <= Z.of_nat (length l) /\
  t = take (Z.to_nat (hi - lo)) (drop (Z.to_nat lo) l).
Proof.
  unfold slice_range. case_decide; [|discriminate].
  intros. simplify_eq. intuition.
Qed.

Lemma freq_error_spec cfg samples :
  freq_error cfg (tail_mean samples)
    = spec_freq_error (spec_mean samples) (SampleRate cfg).
Proof.
  unfold freq_error, spec_freq_error, tail_mean, spec_mean.
  by rewrite int_of_float64_opp.
Qed.

(** C5: for a packet that passes both gates, [Parse] takes the samples of
    the discriminator trace from 8 symbol lengths after the packet's sample
    index up to, and without, 24 symbol lengths after it (16 symbol lengths
    of samples, all inside the trace), takes their arithmetic mean, and
    applies to the tracker the frequency error
    [-(9600 + mean * sampleRate / (2 pi))] as an integer: it is added to the
    current error and the sum is recorded for the current channel. The
    positions are those of the statement as long as they are within the
    range of [int]. *)
Theorem Parse_frequency_error st pkt st' :
  let p := parser st in
  let trace := Discriminated (Demodulator p) in
  let sl := SymbolLength (Cfg p) in
  fresh st pkt ->
  crc_Checksum (CRC p) (drop 2 (dedup_key (mem st) pkt)) = 0 ->
  Parse_body st pkt = Ok st' ->
  Int.in_range (24 * sl) ->
  Int.in_range (Idx pkt + 8 * sl) ->
  Int.in_range (Idx pkt + 24 * sl) ->
  let samples := spec_window trace (Idx pkt) sl in
  let delta := spec_freq_error (spec_mean samples) (SampleRate (Cfg p)) in
  0 <= Idx pkt + 8 * sl /\
  Idx pkt + 24 * sl <= Z.of_nat (length trace) /\
  Z.of_nat (length samples) = 16 * sl /\
  Parse_track delta p = Ok (parser st') /\
  currentFreqErr (parser st') = Int.add (currentFreqErr p) delta /\
  exists ch,
    index (hopPattern p) (hopIdx p) = Ok ch /\
    channelFreqErr (parser st')
      = <[ch := Int.add (currentFreqErr p) delta]> (channelFreqErr p).
Proof.
  intros p trace sl Hf Hsum Hb H24 Hlo Hhi samples delta.
  apply Parse_body_inv in Hb.
  destruct Hb as [Hd _ | _ _ Hne _ | tail p' m _ _ _ Htail Ht _ ->]; [done..|].
  fold p trace sl in Htail, Ht.
  assert (H8 : Int.in_range (8 * sl)).
  { unfold Int.in_range, Int.min_int, Int.max_int in *. lia. }
  unfold Int.add, Int.mul in Htail.
  rewrite (wrap_in_range (8 * sl)), (wrap_in_range (24 * sl)) in Htail by done.
  rewrite !wrap_in_range in Htail by done.
  apply slice_range_inv in Htail as (H0 & Hle & Hlen & ->).
  assert (Hsamples : take (Z.to_nat (Idx pkt + 24 * sl - (Idx pkt + 8 * sl)))
                       (drop (Z.to_nat (Idx pkt + 8 * sl)) trace) = samples).
  { unfold samples, spec_window. rewrite omap_lookup_seq by lia.
    f_equal. lia. }
  rewrite Hsamples in Ht. rewrite freq_error_spec in Ht. fold delta in Ht.
  split; [done|]. split; [done|]. split.
  { rewrite <- Hsamples, length_take, length_drop. lia. }
  simpl. split; [done|].
  apply Parse_track_inv in Ht as (ch & Hch & ->). simpl.
  split; [done|]. by exists ch.
Qed.

End DecoderProps.

(** ** The frequency tracker and the hop index *)

Section Tracker.
Context {crc_CRC rand_Source : Type} {C : Collaborators crc_CRC rand_Source}.
Implicit Types p : Parser crc_CRC.
Implicit Types st : parse_state crc_CRC.
Implicit Types g : rand_Source.

Lemma msgs_not_grown {A} (l : list A) x : l <> l ++ [x].
Proof.
  intros Hl. apply (f_equal length) in Hl. rewrite length_app in Hl.
  simpl in Hl. lia.
Qed.


Lemma Parse_frame p h pkts ms p' h' :
  Parse p h pkts = Ok (ms, p', h') -> parse_frame p p'.
Proof.
  unfold Parse. intros Hp. apply bind_Ok in Hp as (st & Hl & Hp).
  simplify_eq. by apply Parse_loop_frame in Hl.
Qed.

Lemma RandHop_Ok_tables {HR : RandContract C} p g :
  tables_ok p ->
  exists h p' g',
    RandHop p g = Ok (h, p', g') /\ tables_ok p' /\ 0 <= hopIdx p' < 9.
Proof.
  intros Ht. pose proof Ht as (Hc & Hn & Hp).
  unfold RandHop, rand_Intn. rewrite Hn. rewrite decide_False by lia.
  rewrite bind_Ok_l. pose proof (rand_draw_range 9 g ltac:(lia)) as Hr.
  destruct (rand_draw 9 g) as [i g'] eqn:E. simpl in Hr.
  destruct (hop_Ok_tables (set_hopIdx i p)) as (h & p' & Hh & _); [done..|].
  rewrite Hh, bind_Ok_l. exists h, p', g'. split; [done|].
  apply hop_hop_frame in Hh as [Hf Hi]. split; [by eapply tables_ok_frame|].
  by rewrite Hi.
Qed.

Lemma Reachable_wf {HR : RandContract C} p :
  Reachable p -> tables_ok p /\ 0 <= hopIdx p < 9.
Proof.
  induction 1 as [sl id g p g' Hnew | p h p' _ [Ht Hi] Hh | p h p' _ [Ht Hi] Hh
                 | p g h p' g' _ [Ht Hi] Hh | p m pkts ms p' m' _ [Ht Hi] Hp
                 | p d _ [Ht Hi]].
  - destruct (NewParser_Ok sl id g) as (i & g1 & Hd & Hp).
    rewrite Hp in Hnew. simplify_eq. split; [done|]. simpl.
    pose proof (rand_draw_range 9 g ltac:(lia)) as Hr. by rewrite Hd in Hr.
  - apply hop_hop_frame in Hh as [Hf Hidx].
    split; [by eapply tables_ok_frame | by rewrite Hidx].
  - destruct (NextHop_Ok_tables p Ht) as (h0 & p0 & Hh0 & Ht0 & Hi0 & _).
    { destruct Ht as (_ & Hn & _). unfold hopIdx_ok. by rewrite Hn. }
    rewrite Hh in Hh0. simplify_eq. split; [done|]. rewrite Hi0.
    apply Z.mod_pos_bound. lia.
  - destruct (RandHop_Ok_tables p g Ht) as (h0 & p0 & g0 & Hh0 & Ht0 & Hi0).
    rewrite Hh in Hh0. by simplify_eq.
  - apply Parse_frame in Hp as (_ & _ & _ & _ & _ & Hc & Hn & Hpat & Hidx).
    unfold tables_ok in *. rewrite Hc, Hn, Hpat, Hidx. done.
  - done.
Qed.

(** C7: on every receiver a program can reach (made by [NewParser], then
    driven by [hop], [NextHop], [RandHop], [Parse] and the demodulator) the
    hop index is at least 0 and below the channel count, which is 9, the
    length of the hop pattern; [NextHop] and [RandHop] return on it and
    leave an index in that range. *)
Theorem hopIdx_in_range {HR : RandContract C} p :
  Reachable p ->
  (0 <= hopIdx p < channelCount p /\ channelCount p = 9 /\
   Z.of_nat (length (hopPattern p)) = 9) /\
  (exists h p', NextHop p = Ok (h, p') /\ 0 <= hopIdx p' < channelCount p') /\
  (forall g, exists h p' g',
     RandHop p g = Ok (h, p', g') /\ 0 <= hopIdx p' < channelCount p').
Proof.
  intros Hr. pose proof (Reachable_wf p Hr) as [Ht Hi].
  pose proof Ht as (Hc & Hn & Hp). split; [| split].
  - rewrite Hn, Hp. done.
  - destruct (NextHop_Ok_tables p Ht) as (h & p' & Hh & (_ & Hn' & _) & Hi' & _).
    { unfold hopIdx_ok. by rewrite Hn. }
    exists h, p'. split; [done|]. rewrite Hn', Hi'. apply Z.mod_pos_bound. lia.
  - intros g.
    destruct (RandHop_Ok_tables p g Ht) as (h & p' & g' & Hh & (_ & Hn' & _) & Hi').
    exists h, p', g'. by rewrite Hn'.
Qed.

End Tracker.

(** * The properties on the instance *)

Lemma demo_rand : RandContract demo.
Proof.
  intros n g Hn. simpl. unfold lcg_draw. simpl. apply Z.mod_pos_bound. lia.
Qed.

Lemma Parse_deduplicates_witness :
  Parse_loop (C := demo) demo_state [pkt_good; pkt_bad] = Ok demo_state2 /\
  length (msgs demo_state2) = 1%nat /\
  exists st4,
    Parse_body (C := demo) demo_state2 pkt_dup = Ok st4 /\
    msgs st4 = msgs demo_state2 /\
    checksummed st4 = checksummed demo_state2 /\
    parser st4 = parser demo_state2.
Proof.
  split; [vm_compute; reflexivity|]. split; [vm_compute; reflexivity|].
  destruct (Parse_deduplicates (C := demo)) as (Hkey & Hapart).
  assert (Hsep : forall a b c d : nat, (a + b <= c)%nat \/ (c + d <= a)%nat ->
                   separate (mkSlice a b) (mkSlice c d)).
  { unfold separate, in_window. simpl. intros a b c d Hd x. lia. }
  destruct (Hapart demo_parser demo_mem [] pkt_good [pkt_bad] pkt_dup demo_state2)
    as (st4 & Hb & Hm & Hc & Hp).
  - vm_compute; reflexivity.
  - apply Forall_nil_2.
  - repeat (apply Forall_cons; split; [apply Hsep; simpl; lia|]).
    apply Forall_nil_2.
  - vm_compute; reflexivity.
  - destruct (Hkey demo_state [] pkt_good demo_state demo_state1 [pkt_bad]
                demo_state2 pkt_dup) as (st5 & Hb5 & _).
    + reflexivity.
    + vm_compute; reflexivity.
    + vm_compute; reflexivity.
    + vm_compute; reflexivity.
    + exists st4. exact (conj Hb (conj Hm (conj Hc Hp))).
Defined.

Lemma Parse_checksum_gate_witness :
  checksummed demo_state1 = [drop 2 demo_payload] /\
  (exists st2,
     Parse_body (C := demo) demo_state1 pkt_bad = Ok st2 /\
     msgs st2 = msgs demo_state1 /\ parser st2 = parser demo_state1) /\
  exists kept,
    sublist kept [pkt_good; pkt_bad; pkt_dup] /\
    Forall2 (fun m pkt => Message.Idx m = Idx pkt /\
                          exists h0, NewMessage h0 pkt = Ok m)
            demo_run.1.1 kept.
Proof.
  destruct (Parse_checksum_gate (C := demo)) as (Hsum & Hgate & Horder).
  split; [| split].
  - apply (Hsum demo_state pkt_good demo_state1); vm_compute; reflexivity.
  - destruct (Hgate demo_state [pkt_good] demo_state1 pkt_bad [pkt_dup])
      as (st2 & Hb & Hm & Hp & _).
    + vm_compute; reflexivity.
    + vm_compute; reflexivity.
    + simpl. lia.
    + vm_compute. discriminate.
    + exists st2. exact (conj Hb (conj Hm Hp)).
  - apply (Horder demo_parser demo_mem _ _ demo_run.1.2 demo_run.2).
    vm_compute; reflexivity.
Defined.

Lemma NextHop_cycle_witness :
  exists hs p',
    NextHops 9 demo_parser = Ok (hs, p') /\
    ChannelIdx <$> hs = [2; 7; 0; 4; 8; 1; 5; 3; 6] /\
    hopIdx p' = 6.
Proof.
  destruct (NextHop_cycle demo_parser)
    as (_ & hs & p' & Hhs & Hrot & _ & _ & Hback & _).
  - repeat split; reflexivity.
  - unfold hopIdx_ok. simpl. lia.
  - exists hs, p'. exact (conj Hhs (conj Hrot Hback)).
Defined.

Lemma Parse_frequency_error_witness :
  let delta := spec_freq_error (spec_mean (spec_window demo_trace 100 14)) 268800 in
  delta = -50 /\
  Parse_track delta demo_parser = Ok (parser demo_state1) /\
  currentFreqErr (parser demo_state1) = Int.add 0 delta.
Proof.
  split; [vm_compute; reflexivity|].
  destruct (Parse_frequency_error (C := demo) demo_state pkt_good demo_state1)
    as (_ & _ & _ & Ht & Hcur & _).
  - vm_compute; reflexivity.
  - vm_compute; reflexivity.
  - vm_compute; reflexivity.
  - vm_compute. split; discriminate.
  - vm_compute. split; discriminate.
  - vm_compute. split; discriminate.
  - exact (conj Ht Hcur).
Defined.

Lemma Parse_message_witness :
  (exists m b0 b1 b2 rest,
     msgs demo_state1 = msgs demo_state ++ [m] /\
     Message.Data m = drop 2 (dedup_key (mem demo_state) pkt_good) /\
     Message.Data m = b0 :: b1 :: b2 :: rest /\
     Z_of_byte (Message.ID m) = Z.land (Z_of_byte b0) 0xF /\
     Z_of_byte (Message.Sensor m) = Z.shiftr (Z_of_byte b0) 4 /\
     Message.WindSpeed m = b1 /\
     Message.WindDirection m = b2 /\
     Message.Idx m = Idx pkt_good) /\
  Sensor_String x1f = "Unknown(0x" +:+ fmt_X x1f +:+ ")".
Proof.
  destruct (Parse_message (C := demo)) as (Hmsg & Hunknown & _). split.
  - apply (Hmsg demo_state pkt_good demo_state1); vm_compute; reflexivity.
  - apply Hunknown. apply (bool_decide_unpack (x1f ∉ known_sensors)).
    vm_compute. exact I.
Defined.

Lemma hopIdx_in_range_witness :
  0 <= hopIdx demo_hopped < channelCount demo_hopped /\
  channelCount demo_hopped = 9.
Proof.
  destruct (hopIdx_in_range (C := demo) (HR := demo_rand) demo_hopped)
    as ((Hi & Hn & _) & _).
  - apply (Reach_NextHop (C := demo) demo_tracked (mkHop 2 867750000 (-50))).
    + apply (Reach_Parse (C := demo) demo_parser demo_mem [pkt_good]
               demo_state1.(msgs) _ demo_state1.(mem)).
      * apply (Reach_demodulate (C := demo)
                 (mkParser (mkDemodulator []) (mkCRC16 "CCITT-16" 0 0x1021 0)
                    (mkPacketConfig 14 268800) 1 65500000 9 channel_table 6
                    hop_table 0 ∅)
                 (mkDemodulator demo_trace)).
        apply (Reach_new (C := demo) 14 1 42 _ 1250496027).
        vm_compute; reflexivity.
      * vm_compute; reflexivity.
    + vm_compute; reflexivity.
  - exact (conj Hi Hn).
Defined.

Lemma NewParser_DwellTime_witness :
  exists p g',
    NewParser (C := demo) 14 1 42 = Ok (p, g') /\ DwellTime p = 65500000.
Proof.
  destruct (NewParser_DwellTime (C := demo) 14 1 42)
    as (p & g' & Hnew & _ & _ & Hexact).
  exists p, g'. split; [exact Hnew|]. apply Hexact.
  vm_compute. split; discriminate.
Defined.

Lemma Parse_payload_length_witness :
  is_Panic (Parse (C := demo) demo_parser demo_mem [pkt_good; pkt_short]) /\
  NewMessage (swap_payload (mem demo_state1) (Data pkt_short)) pkt_short
    = Panic IndexOutOfRange /\
  is_Ok (Parse (C := demo) demo_parser demo_mem [pkt_good; pkt_bad; pkt_dup]).
Proof.
  destruct (Parse_payload_length (C := demo)) as (_ & Hshort & Htotal).
  destruct (Hshort demo_parser demo_mem [pkt_good] demo_state1 pkt_short [])
    as (_ & Hpanic & _ & Hindex).
  - vm_compute; reflexivity.
  - vm_compute; reflexivity.
  - simpl. lia.
  - right. vm_compute; reflexivity.
  - split; [exact Hpanic|]. split; [apply Hindex; simpl; lia|].
    apply Htotal.
    + simpl. lia.
    + exists 6. reflexivity.
    + repeat (apply Forall_cons; split;
              [split; [simpl; lia | eexists; reflexivity] |]).
      apply Forall_nil_2.
Defined.


(** The end-to-end example of the specification: one valid packet with id 3,
    sensor 8 (Temperature), wind speed 12, wind direction 200, on a trace
    that measures -50 Hz. *)
Lemma Parse_end_to_end :
  Parse (C := demo) demo_parser demo_mem [pkt_good]
    = Ok ([Message.mk 100 (drop 2 demo_payload) x03 Temperature x0c xc8],
          parser demo_state1, mem demo_state1) /\
  Sensor_String Temperature = "Temperature" /\
  (Z_of_byte x03, Z_of_byte x0c, Z_of_byte xc8) = (3, 12, 200) /\
  currentFreqErr (parser demo_state1) = -50 /\
  channelFreqErr (parser demo_state1) !! 6 = Some (-50).
Proof. repeat split; vm_compute; reflexivity. Qed.

(** A payload that occurs twice in a batch through the same window is
    reversed twice: the second time [Parse] reads the bytes the first pass
    left, whose reversal is the bytes of the call. Here these fail the
    checksum. *)
Lemma Parse_same_window_twice :
  let st := from_Ok demo_state
              (Parse_loop (C := demo) demo_state [pkt_good; pkt_good]) in
  Parse_loop (C := demo) demo_state [pkt_good; pkt_good] = Ok st /\
  length (msgs st) = 1%nat /\
  checksummed st = [drop 2 demo_payload; drop 2 demo_raw] /\
  load (mem st) (Data pkt_good) = demo_raw.
Proof. repeat split; vm_compute; reflexivity. Qed.

(** * More of the protocol layer *)

Section MoreSequencer.
Context {crc_CRC rand_Source : Type} {C : Collaborators crc_CRC rand_Source}.
Implicit Types p : Parser crc_CRC.
Implicit Types st : parse_state crc_CRC.
Implicit Types g : rand_Source.

(** [hop] settles the current error: the descriptor reports the error the
    receiver is left with, and a second [hop] returns the same descriptor and
    changes nothing more. *)
Theorem hop_idempotent p h p' :
  hop p = Ok (h, p') ->
  currentFreqErr p' = FreqError h /\ hop p' = Ok (h, p').
Proof.
  intros Hh. apply hop_inv in Hh as (ch & fq & Hch & Hfq & -> & ->).
  split; [done|]. unfold hop.
  destruct (channelFreqErr p !! ch) as [e|] eqn:He; simpl;
    rewrite Hch, !bind_Ok_l, Hfq, !bind_Ok_l, He; reflexivity.
Qed.

(** [hop] returns exactly when the hop index lies in the pattern and the
    pattern's entry lies in the channel list; otherwise it panics with an
    index out of range. On a receiver whose channel count is zero (the zero
    value of [Parser]) [NextHop] panics on the division and [RandHop] in
    [rand.Intn]. *)
Theorem hop_bounds p :
  (is_Ok (hop p) <->
   exists ch, 0 <= hopIdx p /\ hopPattern p !! Z.to_nat (hopIdx p) = Some ch /\
              0 <= ch /\ (Z.to_nat ch < length (channels p))%nat) /\
  (~ is_Ok (hop p) -> hop p = Panic IndexOutOfRange) /\
  (channelCount p = 0 -> NextHop p = Panic IntegerDivideByZero) /\
  (forall g, channelCount p <= 0 -> RandHop p g = Panic InvalidArgumentToIntn).
Proof.
  split; [| split; [| split]].
  - split.
    + intros [[h p'] Hh]. apply hop_inv in Hh as (ch & fq & Hch & Hfq & _).
      apply index_Ok in Hch as [Hi Hch]. apply index_Ok in Hfq as [Hc Hfq].
      exists ch. split; [done|]. split; [done|]. split; [done|].
      by eapply lookup_lt_Some.
    + intros (ch & Hi & Hch & Hc & Hlt).
      destruct (lookup_lt_is_Some_2 _ _ Hlt) as [fq Hfq].
      destruct (hop_total p ch fq) as (h & p' & Hh & _).
      * by apply index_Ok.
      * by apply index_Ok.
      * by exists (h, p').
  - intros Hno. unfold hop.
    destruct (index (hopPattern p) (hopIdx p)) as [ch|e] eqn:Hch.
    + rewrite bind_Ok_l.
      destruct (index (channels p) ch) as [fq|e] eqn:Hfq.
      * destruct (hop_total p ch fq Hch Hfq) as (h & p' & Hh & _).
        destruct Hno. by exists (h, p').
      * unfold index in Hfq. by repeat case_match; simplify_eq.
    + unfold index in Hch. by repeat case_match; simplify_eq.
  - intros H0. unfold NextHop. by rewrite decide_True.
  - intros g H0. unfold RandHop, rand_Intn. by rewrite decide_True.
Qed.

Lemma hop_descriptor_tables p h p' :
  tables_ok p -> hop p = Ok (h, p') ->
  0 <= ChannelIdx h < 9 /\
  ChannelFreq h = 867500000 + 125000 * ChannelIdx h /\
  hop_table !! Z.to_nat (hopIdx p) = Some (ChannelIdx h).
Proof.
  intros (Hc & _ & Hp) Hh.
  apply hop_inv in Hh as (ch & fq & Hch & Hfq & _ & ->). simpl.
  rewrite Hp in Hch. rewrite Hc in Hfq.
  apply index_Ok in Hch as [Hi Hch]. apply index_Ok in Hfq as [H0 Hfq].
  pose proof (lookup_lt_Some _ _ _ Hch) as Hlt. simpl in Hlt.
  assert (Hch9 : 0 <= ch < 9).
  { destruct (Z.to_nat (hopIdx p)) as [|[|[|[|[|[|[|[|[|n]]]]]]]]];
      simpl in Hch; simplify_eq; lia. }
  split; [done|]. split; [|done].
  assert (Hcase : ch = 0 \/ ch = 1 \/ ch = 2 \/ ch = 3 \/ ch = 4 \/ ch = 5 \/
                  ch = 6 \/ ch = 7 \/ ch = 8) by lia.
  destruct Hcase as [->|[->|[->|[->|[->|[->|[->|[->| ->]]]]]]]];
    simpl in Hfq; by simplify_eq.
Qed.

(** On the tables of [NewParser], every descriptor that [hop], [NextHop] or
    [RandHop] returns names a channel index in [[0,9)] taken from the hop
    pattern, and its carrier is 867.5 MHz plus 125 kHz per channel index. *)
Theorem hop_descriptor p :
  tables_ok p ->
  let good (h : Hop) :=
    0 <= ChannelIdx h < 9 /\ ChannelIdx h ∈ hop_table /\
    ChannelFreq h = 867500000 + 125000 * ChannelIdx h in
  (forall h p', hop p = Ok (h, p') -> good h) /\
  (forall h p', NextHop p = Ok (h, p') -> good h) /\
  (forall g h p' g', RandHop p g = Ok (h, p', g') -> good h).
Proof.
  intros Ht good.
  assert (Hgood : forall p0 h p', tables_ok p0 -> hop p0 = Ok (h, p') -> good h).
  { intros p0 h p' Ht0 Hh.
    destruct (hop_descriptor_tables p0 h p' Ht0 Hh) as (Hr & Hf & Hl).
    split; [done|]. split; [|done]. by eapply list_elem_of_lookup_2. }
  split; [| split].
  - intros h p' Hh. by eapply Hgood.
  - intros h p' Hh. apply NextHop_inv in Hh as [_ Hh].
    exact (Hgood (set_hopIdx _ p) h p' Ht Hh).
  - intros g h p' g' Hh. apply RandHop_inv in Hh as (_ & i & _ & Hh).
    exact (Hgood (set_hopIdx i p) h p' Ht Hh).
Qed.

Lemma hop_no_entries p h p' :
  hop p = Ok (h, p') -> channelFreqErr p = ∅ ->
  p' = p /\ FreqError h = currentFreqErr p.
Proof.
  intros Hh Hm. apply hop_inv in Hh as (ch & fq & _ & _ & -> & ->).
  by rewrite Hm, lookup_empty.
Qed.

Lemma hop_step_no_entries p p' :
  hop_step p p' -> channelFreqErr p = ∅ ->
  channelFreqErr p' = ∅ /\ currentFreqErr p' = currentFreqErr p.
Proof.
  destruct 1 as [p h p' Hh | p h p' Hh | p g h p' g' Hh]; intros Hm.
  - by apply hop_no_entries in Hh as [-> _].
  - apply NextHop_inv in Hh as [_ Hh]. by apply hop_no_entries in Hh as [-> _].
  - apply RandHop_inv in Hh as (_ & i & _ & Hh).
    by apply hop_no_entries in Hh as [-> _].
Qed.

Lemma hop_steps_no_entries p p' :
  rtc hop_step p p' -> channelFreqErr p = ∅ ->
  channelFreqErr p' = ∅ /\ currentFreqErr p' = currentFreqErr p.
Proof.
  induction 1 as [|p p1 p2 Hs _ IH]; intros Hm; [done|].
  destruct (hop_step_no_entries _ _ Hs Hm) as [Hm1 Hc1].
  destruct (IH Hm1) as [Hm2 Hc2]. split; [done | congruence].
Qed.

(** Until [Parse] decodes a first packet, a receiver made by [NewParser]
    reports the frequency error 0 on every channel, however it hops. *)
Theorem new_receiver_reports_zero symbolLength id g p g' p2 h p3 :
  NewParser symbolLength id g = Ok (p, g') ->
  rtc hop_step p p2 ->
  hop p2 = Ok (h, p3) ->
  FreqError h = 0 /\ currentFreqErr p3 = 0 /\ channelFreqErr p3 = ∅.
Proof.
  intros Hnew Hsteps Hh.
  destruct (NewParser_Ok symbolLength id g) as (i & g1 & _ & Hp).
  rewrite Hp in Hnew. simplify_eq.
  destruct (hop_steps_no_entries _ _ Hsteps eq_refl) as [Hm Hc].
  simpl in Hc.
  destruct (hop_no_entries _ _ _ Hh Hm) as [-> ->]. done.
Qed.

(** [NewParser] always returns, and what it returns does not depend on its
    argument [symbolLength]: the packet configuration is the fixed one, and
    two receivers made for the same id differ at most in the hop index that
    [rand.Intn] drew. *)
Theorem NewParser_ignores_symbolLength s1 s2 id g1 g2 :
  exists p1 g1' p2 g2',
    NewParser s1 id g1 = Ok (p1, g1') /\
    NewParser s2 id g2 = Ok (p2, g2') /\
    Cfg p1 = dsp_NewPacketConfig 19200 14 16 80 "1100101110001001" /\
    set_hopIdx 0 p1 = set_hopIdx 0 p2 /\
    (rand_draw 9 g1 = rand_draw 9 g2 -> p1 = p2).
Proof.
  destruct (NewParser_Ok s1 id g1) as (i1 & g1' & Hd1 & ->).
  destruct (NewParser_Ok s2 id g2) as (i2 & g2' & Hd2 & ->).
  eexists _, _, _, _. split; [reflexivity|]. split; [reflexivity|].
  split; [reflexivity|]. split; [reflexivity|].
  intros Hd. rewrite Hd1, Hd2 in Hd. by simplify_eq.
Qed.

(** After [n] calls to [NextHop] the hop index has advanced by [n] modulo 9,
    and the [k]-th call reported the pattern's entry [k] places after the
    starting index, cyclically. *)
Theorem NextHops_nth p n :
  tables_ok p -> hopIdx_ok p ->
  exists hs p',
    NextHops n p = Ok (hs, p') /\
    length hs = n /\
    hopIdx p' = (hopIdx p + Z.of_nat n) mod 9 /\
    forall k h, hs !! k = Some h ->
      hop_table !! Z.to_nat ((hopIdx p + Z.of_nat (S k)) mod 9)
        = Some (ChannelIdx h).
Proof.
  intros Ht Hi.
  destruct (NextHops_spec n p Ht Hi) as (hs & p' & Hhs & _ & _ & Hidx & Hl).
  exists hs, p'. split; [done|].
  assert (Hlen : length hs = n).
  { apply (f_equal length) in Hl. by rewrite !length_fmap, length_seq in Hl. }
  split; [done|]. split; [done|].
  intros k h Hk.
  assert (Hk' : (ChannelIdx <$> hs) !! k = Some (ChannelIdx h)).
  { by rewrite list_lookup_fmap, Hk. }
  rewrite Hl, list_lookup_fmap in Hk'.
  assert (Hlt : (k < n)%nat) by (rewrite <- Hlen; by eapply lookup_lt_Some).
  rewrite lookup_seq_lt in Hk' by done. simpl in Hk'.
  injection Hk' as Hk'. rewrite <- Hk'.
  rewrite hop_table_lookup by (apply Z.mod_pos_bound; lia).
  f_equal. unfold pattern_at. rewrite Z.mod_mod by lia.
  replace (Z.of_nat (S k)) with (Z.of_nat (1 + k)) by lia. reflexivity.
Qed.

End MoreSequencer.

Section MoreDecoder.
Context {crc_CRC rand_Source : Type} {C : Collaborators crc_CRC rand_Source}.
Implicit Types p : Parser crc_CRC.
Implicit Types st : parse_state crc_CRC.
Implicit Types g : rand_Source.

Lemma wrap_add_l a b : Int.wrap (Int.wrap a + b) = Int.wrap (a + b).
Proof. rewrite (Z.add_comm (Int.wrap a)), wrap_add_r. f_equal. lia. Qed.

Lemma Int_add_assoc a b c : Int.add (Int.add a b) c = Int.add a (Int.add b c).
Proof.
  unfold Int.add. rewrite wrap_add_l, wrap_add_r. f_equal. lia.
Qed.

(** Two decodes in a row on one channel add up: applying the error [d1] and
    then [d2] to the tracker leaves the receiver that applying their sum (in
    the arithmetic of [int]) leaves. *)
Theorem Parse_track_accumulates d1 d2 p p1 :
  Parse_track d1 p = Ok p1 ->
  Parse_track d2 p1 = Parse_track (Int.add d1 d2) p.
Proof.
  intros (ch & Hch & ->)%Parse_track_inv.
  unfold Parse_track. simpl. rewrite Hch, !bind_Ok_l. simpl.
  unfold set_currentFreqErr, set_channelFreqErr. simpl.
  by rewrite insert_insert_eq, Int_add_assoc.
Qed.

(** What one packet does to the tracker: nothing, or one decode that touches
    the entry of the current channel only and leaves it equal to the current
    error. *)
Lemma outcome_tracker st pkt st' :
  outcome st pkt st' ->
  (parser st' = parser st /\ msgs st' = msgs st) \/
  (exists ch m,
     index (hopPattern (parser st)) (hopIdx (parser st)) = Ok ch /\
     msgs st' = msgs st ++ [m] /\
     (forall k, k <> ch ->
        channelFreqErr (parser st') !! k = channelFreqErr (parser st) !! k) /\
     channelFreqErr (parser st') !! ch = Some (currentFreqErr (parser st'))).
Proof.
  destruct 1 as [_ -> | _ _ _ -> | tail p' m _ _ _ _ Ht _ ->]; simpl;
    [by left | by left |].
  right. apply Parse_track_inv in Ht as (ch & Hch & ->). simpl.
  exists ch, m. split; [done|]. split; [done|]. split.
  - intros k Hk. by rewrite lookup_insert_ne.
  - by rewrite lookup_insert_eq.
Qed.

Lemma Parse_loop_tracker pkts : forall st st',
  Parse_loop st pkts = Ok st' ->
  (parser st' = parser st /\ msgs st' = msgs st) \/
  (exists ch,
     index (hopPattern (parser st)) (hopIdx (parser st)) = Ok ch /\
     (length (msgs st) < length (msgs st'))%nat /\
     (forall k, k <> ch ->
        channelFreqErr (parser st') !! k = channelFreqErr (parser st) !! k) /\
     channelFreqErr (parser st') !! ch = Some (currentFreqErr (parser st'))).
Proof.
  induction pkts as [|pkt rest IH]; intros st st' Hl.
  - simpl in Hl. simplify_eq. by left.
  - simpl in Hl. apply bind_Ok in Hl as (st1 & Hb & Hl).
    apply Parse_body_inv in Hb. pose proof (outcome_frame _ _ _ Hb) as Hf.
    destruct Hf as (_ & _ & _ & _ & _ & _ & _ & Hpat & Hidx).
    apply outcome_tracker in Hb. apply IH in Hl.
    destruct Hb as [[Hp Hm] | (ch & m & Hch & Hm & Hother & Hcur)].
    + rewrite Hp, Hm in Hl. exact Hl.
    + right. exists ch. split; [done|].
      destruct Hl as [[Hp' Hm'] | (ch' & Hch' & Hlen & Hother' & Hcur')].
      * rewrite Hp', Hm', Hm, length_app. simpl. split; [lia|]. done.
      * rewrite Hpat, Hidx, Hch in Hch'. simplify_eq.
        rewrite Hm, length_app in Hlen. simpl in Hlen.
        split; [lia|]. split; [|done].
        intros k Hk. by rewrite Hother', Hother.
Qed.

(** When [Parse] returns no message it has left the receiver exactly as it
    was: duplicates and packets that fail the checksum never reach the
    tracker. The empty batch is the first case of this. *)
Theorem Parse_no_message p h pkts p' h' :
  Parse p h pkts = Ok ([], p', h') -> p' = p.
Proof.
  unfold Parse. intros Hp. apply bind_Ok in Hp as (st & Hl & Hp).
  injection Hp as Hm <- _. apply Parse_loop_tracker in Hl.
  destruct Hl as [[Hp' _] | (ch & _ & Hlen & _)]; [done|].
  simpl in Hlen. rewrite Hm in Hlen. simpl in Hlen. lia.
Qed.

(** [Parse] writes the per-channel map at the channel of the current hop
    index only: every other entry is as before, and when a message was
    decoded the entry of the current channel is the current error that
    [Parse] leaves. *)
Theorem Parse_current_channel_only p h pkts ms p' h' ch :
  Parse p h pkts = Ok (ms, p', h') ->
  index (hopPattern p) (hopIdx p) = Ok ch ->
  (forall k, k <> ch -> channelFreqErr p' !! k = channelFreqErr p !! k) /\
  (ms <> [] -> channelFreqErr p' !! ch = Some (currentFreqErr p')).
Proof.
  unfold Parse. intros Hp Hch. apply bind_Ok in Hp as (st & Hl & Hp).
  simplify_eq. apply Parse_loop_tracker in Hl. simpl in Hl.
  destruct Hl as [[-> Hm] | (ch' & Hch' & _ & Hother & Hcur)].
  - split; [done|]. intros Hne. by rewrite Hm in Hne.
  - rewrite Hch in Hch'. simplify_eq. done.
Qed.

Lemma Reachable_tables p : Reachable p -> tables_ok p.
Proof.
  induction 1 as [sl id g p g' Hnew | p h p' _ Ht Hh | p h p' _ Ht Hh
                 | p g h p' g' _ Ht Hh | p m pkts ms p' m' _ Ht Hp
                 | p d _ Ht].
  - destruct (NewParser_Ok sl id g) as (i & g1 & _ & Hp).
    rewrite Hp in Hnew. by simplify_eq.
  - apply hop_hop_frame in Hh as [Hf _]. by eapply tables_ok_frame.
  - apply NextHop_inv in Hh as [_ Hh]. apply hop_hop_frame in Hh as [Hf _].
    by eapply (tables_ok_frame (set_hopIdx _ p)).
  - apply RandHop_inv in Hh as (_ & i & _ & Hh).
    apply hop_hop_frame in Hh as [Hf _].
    by eapply (tables_ok_frame (set_hopIdx i p)).
  - apply Parse_frame in Hp as (_ & _ & _ & _ & _ & Hc & Hn & Hpat & _).
    unfold tables_ok in *. by rewrite Hc, Hn, Hpat.
  - done.
Qed.

Lemma hop_recorded p h p' k e :
  hop p = Ok (h, p') ->
  (channelFreqErr p' !! k = Some e -> channelFreqErr p !! k = Some e) /\
  (forall ch, index (hopPattern p') (hopIdx p') = Ok ch ->
     channelFreqErr p' !! ch = Some e -> currentFreqErr p' = e).
Proof.
  intros (ch & fq & Hch & _ & -> & _)%hop_inv.
  destruct (channelFreqErr p !! ch) as [e'|] eqn:He; simpl;
    (split; [done|]); intros ch' Hch' He'; rewrite Hch in Hch';
    simplify_eq; congruence.
Qed.

(** On every receiver a program can reach, the per-channel map has entries
    for channel indices of the hop pattern only, that is 0 to 8. *)
Theorem recorded_channels_valid p k e :
  Reachable p -> channelFreqErr p !! k = Some e ->
  k ∈ hop_table /\ 0 <= k < 9.
Proof.
  intros Hr Hk.
  assert (Hin : k ∈ hop_table).
  { revert k e Hk.
    induction Hr as [sl id g p g' Hnew | p h p' Hr IH Hh | p h p' Hr IH Hh
                    | p g h p' g' Hr IH Hh | p m pkts ms p' m' Hr IH Hp
                    | p d Hr IH]; intros k e Hk.
    - destruct (NewParser_Ok sl id g) as (i & g1 & _ & Hp).
        rewrite Hp in Hnew. injection Hnew as <- _. simpl in Hk.
      by rewrite lookup_empty in Hk.
    - apply (hop_recorded _ _ _ k e) in Hh as [Hh _]. eauto.
    - apply NextHop_inv in Hh as [_ Hh].
      apply (hop_recorded _ _ _ k e) in Hh as [Hh _]. eapply IH. by apply Hh.
    - apply RandHop_inv in Hh as (_ & i & _ & Hh).
      apply (hop_recorded _ _ _ k e) in Hh as [Hh _]. eapply IH. by apply Hh.
    - pose proof (Reachable_tables _ Hr) as (_ & _ & Hpat).
      unfold Parse in Hp. apply bind_Ok in Hp as (st & Hl & Hp). simplify_eq.
      apply Parse_loop_tracker in Hl. simpl in Hl.
      destruct Hl as [[Hp' _] | (ch & Hch & _ & Hother & _)].
      + rewrite Hp' in Hk. eauto.
      + destruct (decide (k = ch)) as [->|Hne].
        * rewrite Hpat in Hch. apply index_Ok in Hch as [_ Hch].
          by eapply list_elem_of_lookup_2.
        * rewrite Hother in Hk by done. eauto.
    - simpl in Hk. eauto. }
  split; [done|].
  unfold hop_table in Hin. rewrite !elem_of_cons, elem_of_nil in Hin. lia.
Qed.

(** On every receiver a program can reach, an error recorded for the channel
    of the current hop index is the current error: the tracker never holds
    two estimates for the channel it is tuned to. *)
Theorem tracker_consistent p ch e :
  Reachable p ->
  index (hopPattern p) (hopIdx p) = Ok ch ->
  channelFreqErr p !! ch = Some e ->
  currentFreqErr p = e.
Proof.
  intros Hr. revert ch e.
  induction Hr as [sl id g p g' Hnew | p h p' Hr IH Hh | p h p' Hr IH Hh
                  | p g h p' g' Hr IH Hh | p m pkts ms p' m' Hr IH Hp
                  | p d Hr IH]; intros ch e Hch He.
  - destruct (NewParser_Ok sl id g) as (i & g1 & _ & Hp).
    rewrite Hp in Hnew. injection Hnew as <- _. simpl in He.
    by rewrite lookup_empty in He.
  - apply (hop_recorded _ _ _ ch e) in Hh as [_ Hh]. eauto.
  - apply NextHop_inv in Hh as [_ Hh].
    apply (hop_recorded _ _ _ ch e) in Hh as [_ Hh]. eauto.
  - apply RandHop_inv in Hh as (_ & i & _ & Hh).
    apply (hop_recorded _ _ _ ch e) in Hh as [_ Hh]. eauto.
  - pose proof (Parse_frame _ _ _ _ _ _ Hp)
      as (_ & _ & _ & _ & _ & _ & _ & Hpat & Hidx).
    unfold Parse in Hp. apply bind_Ok in Hp as (st & Hl & Hp). simplify_eq.
    apply Parse_loop_tracker in Hl. simpl in Hl.
    destruct Hl as [[Hp' _] | (ch' & Hch' & _ & _ & Hcur)].
    + rewrite Hp' in *. eauto.
    + rewrite Hpat, Hidx, Hch' in Hch. simplify_eq. congruence.
  - simpl in *. eauto.
Qed.

End MoreDecoder.

Section MoreMemory.
Context {crc_CRC rand_Source : Type} {C : Collaborators crc_CRC rand_Source}.
Implicit Types p : Parser crc_CRC.
Implicit Types st : parse_state crc_CRC.
Implicit Types g : rand_Source.

Lemma SwapBitOrder_twice b : SwapBitOrder (SwapBitOrder b) = b.
Proof. destruct b; reflexivity. Qed.

Lemma fmap_SwapBitOrder_twice (l : list byte) :
  SwapBitOrder <$> (SwapBitOrder <$> l) = l.
Proof.
  rewrite <- list_fmap_compose. rewrite <- (list_fmap_id l) at 2.
  apply list_fmap_ext. intros _ b _. apply SwapBitOrder_twice.
Qed.

Lemma Parse_loop_mem_outside a pkts : forall st st',
  Parse_loop st pkts = Ok st' ->
  Forall (fun q => ~ in_window a (Data q)) pkts ->
  mem_read (mem st') a = mem_read (mem st) a.
Proof.
  induction pkts as [|pkt rest IH]; intros st st' Hl Hout.
  - simpl in Hl. by simplify_eq.
  - simpl in Hl. apply bind_Ok in Hl as (st1 & Hb & Hl).
    apply Forall_cons in Hout as [Hpkt Hrest].
    rewrite (IH _ _ Hl Hrest).
    apply Parse_body_inv, outcome_mem in Hb. rewrite Hb, swap_payload_at.
    by rewrite decide_False.
Qed.

Lemma Parse_loop_reverses_at pkts st st' i pkt :
  Parse_loop st pkts = Ok st' ->
  pkts !! i = Some pkt ->
  (forall j q, pkts !! j = Some q -> j <> i -> separate (Data pkt) (Data q)) ->
  load (mem st') (Data pkt) = SwapBitOrder <$> load (mem st) (Data pkt).
Proof.
  intros Hl Hi Hsep. rewrite <- (take_drop_middle pkts i pkt Hi) in Hl.
  rewrite Parse_loop_app in Hl. apply bind_Ok in Hl as (st1 & Hl1 & Hl).
  simpl in Hl. apply bind_Ok in Hl as (st2 & Hb & Hl2).
  rewrite (Parse_loop_load_separate _ _ _ _ Hl2).
  - rewrite (Parse_body_in_place _ _ _ Hb). unfold dedup_key.
    by rewrite (Parse_loop_load_separate _ _ _ _ Hl1);
      [| apply Forall_lookup; intros j q [Hq Hj]%lookup_take_Some;
         apply (Hsep j q Hq); lia].
  - apply Forall_lookup. intros j q Hq. rewrite lookup_drop in Hq.
    apply (Hsep _ q Hq). lia.
Qed.

Lemma Parse_reverses p h pkts ms p' h' :
  Parse p h pkts = Ok (ms, p', h') -> apart pkts ->
  forall pkt, pkt ∈ pkts ->
    load h' (Data pkt) = SwapBitOrder <$> load h (Data pkt).
Proof.
  unfold Parse. intros Hp. apply bind_Ok in Hp as (st & Hl & Hp).
  injection Hp as _ _ <-.
  intros Hapart pkt [i Hi]%list_elem_of_lookup_1.
  apply (Parse_loop_reverses_at _ _ _ i pkt Hl Hi).
  intros j q Hq Hne. by apply (Hapart i j pkt q).
Qed.

(** [Parse] writes into the memory of its caller: where the packets of a
    batch lie apart, the payload of every packet, duplicates and rejected
    ones too, is left with the bit order of each byte reversed; no address
    outside the payloads of the batch is written. *)
Theorem Parse_memory p h pkts ms p' h' :
  Parse p h pkts = Ok (ms, p', h') ->
  (forall a, Forall (fun q => ~ in_window a (Data q)) pkts ->
     mem_read h' a = mem_read h a) /\
  (apart pkts -> forall pkt, pkt ∈ pkts ->
     load h' (Data pkt) = SwapBitOrder <$> load h (Data pkt)).
Proof.
  intros Hp. split; [|by eapply Parse_reverses].
  unfold Parse in Hp. apply bind_Ok in Hp as (st & Hl & Hp).
  injection Hp as _ _ <-.
  intros a Hout. by apply (Parse_loop_mem_outside a _ _ _ Hl).
Qed.

(** Running [Parse] a second time on the same packets reverses their
    payloads back: after two runs that return, the memory of a batch whose
    packets lie apart holds the bytes it held before the first. *)
Theorem Parse_twice_restores p h pkts ms p1 h1 ms' p2 h2 :
  Parse p h pkts = Ok (ms, p1, h1) ->
  Parse p1 h1 pkts = Ok (ms', p2, h2) ->
  apart pkts ->
  forall pkt, pkt ∈ pkts -> load h2 (Data pkt) = load h (Data pkt).
Proof.
  intros H1 H2 Hapart pkt Hin.
  rewrite (Parse_reverses _ _ _ _ _ _ H2 Hapart pkt Hin).
  rewrite (Parse_reverses _ _ _ _ _ _ H1 Hapart pkt Hin).
  apply fmap_SwapBitOrder_twice.
Qed.

Lemma nibbles b :
  Z_of_byte b = 16 * Z_of_byte (bshr b 4) + Z_of_byte (band b 0xF) /\
  0 <= Z_of_byte (band b 0xF) < 16 /\ 0 <= Z_of_byte (bshr b 4) < 16.
Proof. destruct b; vm_compute; intuition discriminate. Qed.

(** The id and the sensor code of a message are the two halves of byte 0 of
    its payload: both are below 16 and 16 times the sensor code plus the id
    is that byte, so no sensor code above 0xF is ever decoded. The payload
    of the message is two bytes shorter than the packet's. *)
Theorem NewMessage_nibbles h pkt m :
  NewMessage h pkt = Ok m ->
  exists b0,
    Message.Data m !! 0%nat = Some b0 /\
    Z_of_byte b0 = 16 * Z_of_byte (Message.Sensor m) + Z_of_byte (Message.ID m) /\
    0 <= Z_of_byte (Message.ID m) < 16 /\
    0 <= Z_of_byte (Message.Sensor m) < 16 /\
    length (Message.Data m) = (len (Data pkt) - 2)%nat.
Proof.
  intros Hm. pose proof (length_load h (Data pkt)) as Hlen.
  apply NewMessage_inv in Hm as (a0 & a1 & b0 & b1 & b2 & rest & Hl & ->).
  rewrite Hl in Hlen. simpl in Hlen. exists b0. simpl.
  destruct (nibbles b0) as (Hsum & Hid & Hs).
  split; [done|]. split; [done|]. split; [done|]. split; [done|]. lia.
Qed.

(** The deduplication key covers the two prefix bytes, the checksum does
    not: after a packet has been decoded, a packet stored apart from it that
    differs from it in the prefix only is decoded as well, and [Parse]
    returns two messages with the same payload and fields. *)
Theorem Parse_prefix_only_difference st (first : dsp_Packet) st1 m1
    (second : dsp_Packet) :
  Parse_body st first = Ok st1 ->
  msgs st1 = msgs st ++ [m1] ->
  fresh st second ->
  separate (Data second) (Data first) ->
  drop 2 (load (mem st) (Data second)) = drop 2 (load (mem st) (Data first)) ->
  take 2 (load (mem st) (Data second)) <> take 2 (load (mem st) (Data first)) ->
  is_Ok (slice_range (Discriminated (Demodulator (parser st)))
           (Int.add (Idx second) (Int.mul 8 (SymbolLength (Cfg (parser st)))))
           (Int.add (Idx second) (Int.mul 24 (SymbolLength (Cfg (parser st)))))) ->
  exists st2 m2,
    Parse_body st1 second = Ok st2 /\
    msgs st2 = msgs st ++ [m1; m2] /\
    Message.Data m2 = Message.Data m1 /\
    Message.ID m2 = Message.ID m1 /\
    Message.Sensor m2 = Message.Sensor m1 /\
    Message.WindSpeed m2 = Message.WindSpeed m1 /\
    Message.WindDirection m2 = Message.WindDirection m1.
Proof.
  intros Hb Hmsgs Hfresh Hsep Hdrop Htake [tail2 Htail2].
  apply Parse_body_inv in Hb.
  destruct Hb as [_ -> | _ _ _ -> | tail p1 m Hf1 Hlen1 Hsum1 Htail1 Ht1 Hm ->];
    simpl in Hmsgs; [by apply msgs_not_grown in Hmsgs.. |].
  apply app_inv_head in Hmsgs. injection Hmsgs as ->.
  set (st1 := mkState (swap_payload (mem st) (Data first))
                (<[dedup_key (mem st) first:=true]> (seen st)) p1
                (msgs st ++ [m1])
                (checksummed st ++ [drop 2 (dedup_key (mem st) first)])).
  apply NewMessage_inv in Hm as (a0 & a1 & b0 & b1 & b2 & rest & Hkey1 & ->).
  rewrite load_swap_payload in Hkey1. fold (dedup_key (mem st) first) in Hkey1.
  assert (Hkey2 : dedup_key (mem st1) second = dedup_key (mem st) second).
  { unfold dedup_key. simpl. by rewrite load_swap_separate. }
  assert (Hne : dedup_key (mem st) second <> dedup_key (mem st) first).
  { unfold dedup_key. intros Heq. apply Htake.
    apply (f_equal (fmap SwapBitOrder)) in Heq.
    rewrite !fmap_SwapBitOrder_twice in Heq. by rewrite Heq. }
  assert (Hdrop' : drop 2 (dedup_key (mem st) second) = b0 :: b1 :: b2 :: rest).
  { unfold dedup_key. rewrite <- fmap_drop, Hdrop, fmap_drop.
    fold (dedup_key (mem st) first). by rewrite Hkey1. }
  assert (Hlen2 : (5 <= len (Data second))%nat).
  { apply (f_equal length) in Hdrop'. unfold dedup_key in Hdrop'.
    rewrite length_drop, length_fmap, length_load in Hdrop'.
    simpl in Hdrop'. lia. }
  pose proof (Parse_track_frame _ _ _ Ht1)
    as (Hdem & Hcrc & Hcfg & _ & _ & _ & _ & Hpat & Hidx).
  assert (Hfresh1 : fresh st1 second).
  { unfold fresh. rewrite Hkey2. simpl. by rewrite lookup_insert_ne. }
  assert (Hsum2 : crc_Checksum (CRC (parser st1))
                    (drop 2 (dedup_key (mem st1) second)) = 0).
  { rewrite Hkey2, Hdrop'. simpl. rewrite Hcrc, <- Hsum1. by rewrite Hkey1. }
  rewrite (Parse_body_accept st1 second Hfresh1) by (done || lia).
  cbv zeta. change (parser st1) with p1.
  rewrite Hdem, Hcfg, Htail2, bind_Ok_l.
  apply Parse_track_inv in Ht1 as (ch & Hch & Hp1).
  unfold Parse_track at 1. rewrite Hpat, Hidx, Hch, !bind_Ok_l.
  destruct (dedup_key (mem st) second) as [|c0 [|c1 key]] eqn:Ek;
    simpl in Hdrop'; try discriminate. rewrite drop_0 in Hdrop'. subst key.
  rewrite (NewMessage_Ok _ second c0 c1 b0 b1 b2 rest).
  - rewrite bind_Ok_l. eexists _, _. split; [reflexivity|]. simpl.
    split; [by rewrite <- app_assoc|]. done.
  - rewrite load_swap_payload. fold (dedup_key (mem st1) second).
    by rewrite Hkey2.
Qed.

(** A packet that passes both gates and whose tail does not lie inside the
    trace stops [Parse] with a panic at the slice of the trace: the batch
    yields nothing, also not the messages decoded before that packet. *)
Theorem Parse_trace_too_short st0 l1 st pkt l2 :
  let p := parser st in
  let trace := Discriminated (Demodulator p) in
  let sl := SymbolLength (Cfg p) in
  Parse_loop st0 l1 = Ok st ->
  fresh st pkt -> (2 <= len (Data pkt))%nat ->
  crc_Checksum (CRC p) (drop 2 (dedup_key (mem st) pkt)) = 0 ->
  Int.in_range (24 * sl) ->
  Int.in_range (Idx pkt + 8 * sl) ->
  Int.in_range (Idx pkt + 24 * sl) ->
  Idx pkt + 8 * sl < 0 \/ sl < 0 \/ Z.of_nat (length trace) < Idx pkt + 24 * sl ->
  Parse_body st pkt = Panic SliceBoundsOutOfRange /\
  Parse_loop st0 (l1 ++ pkt :: l2) = Panic SliceBoundsOutOfRange.
Proof.
  intros p trace sl Hl1 Hf Hlen Hsum H24 Hlo Hhi Hout.
  assert (H8 : Int.in_range (8 * sl)).
  { unfold Int.in_range, Int.min_int, Int.max_int in *. lia. }
  assert (Hbody : Parse_body st pkt = Panic SliceBoundsOutOfRange).
  { rewrite Parse_body_accept by done. cbv zeta. fold p trace sl.
    unfold Int.add, Int.mul.
    rewrite (wrap_in_range (8 * sl)), (wrap_in_range (24 * sl)) by done.
    rewrite !wrap_in_range by done.
    unfold slice_range. by rewrite decide_False by lia. }
  split; [done|].
  rewrite Parse_loop_app, Hl1, bind_Ok_l. simpl. by rewrite Hbody.
Qed.

End MoreMemory.

Section MoreFrames.
Context {crc_CRC rand_Source : Type} {C : Collaborators crc_CRC rand_Source}.
Implicit Types p : Parser crc_CRC.
Implicit Types st : parse_state crc_CRC.
Implicit Types g : rand_Source.

Lemma hop_sets_error p h p' :
  hop p = Ok (h, p') -> exists e, p' = set_currentFreqErr e p.
Proof.
  intros (ch & fq & _ & _ & -> & _)%hop_inv.
  destruct (channelFreqErr p !! ch) as [e|]; [by exists e|].
  exists (currentFreqErr p). by destruct p.
Qed.

Lemma hop_step_fields p p' :
  hop_step p p' -> exists i e, p' = set_hopIdx i (set_currentFreqErr e p).
Proof.
  destruct 1 as [p h p' Hh | p h p' Hh | p g h p' g' Hh].
  - apply hop_sets_error in Hh as [e ->]. exists (hopIdx p), e. by destruct p.
  - apply NextHop_inv in Hh as [_ Hh]. apply hop_sets_error in Hh as [e ->].
    eexists _, e. by destruct p.
  - apply RandHop_inv in Hh as (_ & i & _ & Hh).
    apply hop_sets_error in Hh as [e ->]. exists i, e. by destruct p.
Qed.

(** The hop methods, in any number and order, write two fields of the
    receiver and no other: the position in the pattern and the current
    frequency error. Receivers before and after agree once these two are
    set to the same values. *)
Theorem hops_write_position_and_error p p' :
  rtc hop_step p p' ->
  set_hopIdx 0 (set_currentFreqErr 0 p') = set_hopIdx 0 (set_currentFreqErr 0 p).
Proof.
  induction 1 as [p | p p1 p' Hstep _ IH]; [done|].
  rewrite IH. apply hop_step_fields in Hstep as (i & e & ->). by destruct p.
Qed.

(** [Parse] writes two fields of the receiver and no other: the current
    frequency error and the map of the errors of the channels. The position
    in the pattern, the tables, the identifier, the dwell time, the packet
    configuration, the demodulator and the CRC are as before the call. *)
Theorem Parse_writes_tracker_only p h pkts ms p' h' :
  Parse p h pkts = Ok (ms, p', h') ->
  set_currentFreqErr 0 (set_channelFreqErr ∅ p')
    = set_currentFreqErr 0 (set_channelFreqErr ∅ p).
Proof.
  unfold Parse. intros Hp. apply bind_Ok in Hp as (st & Hl & Hp).
  injection Hp as _ <- _. apply Parse_loop_frame in Hl. simpl in Hl.
  destruct Hl as (? & ? & ? & ? & ? & ? & ? & ? & ?).
  destruct p, (parser st). simpl in *. by subst.
Qed.

(** The messages [Parse] returns come from packets of the batch in the
    order of the batch: their sample indices are a subsequence of those
    of the packets, so there are no more messages than packets. *)
Theorem Parse_messages_in_packet_order p h pkts ms p' h' :
  Parse p h pkts = Ok (ms, p', h') ->
  sublist (Message.Idx <$> ms) (Idx <$> pkts) /\
  (length ms <= length pkts)%nat.
Proof.
  unfold Parse. intros Hp. apply bind_Ok in Hp as (st & Hl & Hp).
  injection Hp as <- _ _.
  apply Parse_loop_order in Hl as (new & kept & Hm & Hs & Hf).
  simpl in Hm. rewrite Hm.
  assert (Hidx : Message.Idx <$> new = Idx <$> kept).
  { clear Hs Hm. induction Hf as [|m pkt new kept [hm Hn] _ IH]; [done|].
    apply NewMessage_inv in Hn as (? & ? & ? & ? & ? & ? & _ & ->).
    rewrite !fmap_cons, IH. reflexivity. }
  split.
  - rewrite Hidx. by apply fmap_sublist.
  - apply sublist_length in Hs. apply Forall2_length in Hf. lia.
Qed.

(** The record of the payloads seen lives for one call of [Parse]. A packet
    decoded by one call, offered again from storage of its own, is skipped
    as a duplicate when it comes in the same batch, and decoded a second
    time, with the same message bytes, when it comes in the next call. *)
Theorem Parse_forgets_between_calls p h (first second : dsp_Packet) m p1 h1 :
  Parse p h [first] = Ok ([m], p1, h1) ->
  separate (Data second) (Data first) ->
  load h (Data second) = load h (Data first) ->
  is_Ok (slice_range (Discriminated (Demodulator p))
           (Int.add (Idx second) (Int.mul 8 (SymbolLength (Cfg p))))
           (Int.add (Idx second) (Int.mul 24 (SymbolLength (Cfg p))))) ->
  (exists h2, Parse p h [first; second] = Ok ([m], p1, h2)) /\
  (exists m' p2 h2,
     Parse p1 h1 [second] = Ok ([m'], p2, h2) /\
     Message.Data m' = Message.Data m).
Proof.
  unfold Parse at 1. intros Hp Hsep Hload [tail2 Htail2].
  apply bind_Ok in Hp as (st1 & Hl & Hp). simpl in Hl.
  apply bind_Ok in Hl as (st1' & Hb & Hl). injection Hl as ->.
  injection Hp as Hm Hp1 Hh1.
  pose proof Hb as Ho. apply Parse_body_inv in Ho.
  destruct Ho as [_ -> | _ _ _ -> | tail p1' m0 Hf1 Hlen1 Hsum1 Htail1 Ht1 Hn Hst];
    simpl in Hm; [discriminate.. |].
  rewrite Hst in Hm, Hp1, Hh1. simpl in Hm, Hp1, Hh1, Hf1, Hsum1, Htail1, Ht1, Hn.
  injection Hm as ->. subst p1' h1.
  assert (Hkey : SwapBitOrder <$> load (swap_payload h (Data first)) (Data second)
                 = dedup_key h first).
  { rewrite load_swap_separate by done. by rewrite Hload. }
  assert (Hlen : len (Data second) = len (Data first)).
  { apply (f_equal length) in Hload. by rewrite !length_load in Hload. }
  split.
  - assert (Hdup : ~ fresh st1 second).
    { unfold fresh, dedup_key. rewrite Hst. simpl. rewrite Hkey.
      by rewrite lookup_insert_eq. }
    unfold Parse. simpl. rewrite Hb, bind_Ok_l.
    rewrite (Parse_body_duplicate _ _ Hdup), !bind_Ok_l. rewrite Hst. simpl.
    by eexists.
  - set (st := Parse_init p1 (swap_payload h (Data first))).
    assert (Hf2 : fresh st second) by (unfold fresh; simpl; by rewrite lookup_empty).
    assert (Hkey2 : dedup_key (mem st) second = dedup_key h first) by exact Hkey.
    pose proof (Parse_track_frame _ _ _ Ht1)
      as (Hdem & Hcrc & Hcfg & _ & _ & _ & _ & Hpat & Hidx).
    unfold Parse. simpl. fold st.
    rewrite (Parse_body_accept st second Hf2); [|lia|].
    2:{ rewrite Hkey2. simpl. by rewrite Hcrc. }
    cbv zeta. change (parser st) with p1. change (mem st) with (swap_payload h (Data first)).
    rewrite Hdem, Hcfg, Htail2, bind_Ok_l.
    apply Parse_track_inv in Ht1 as (ch & Hch & Hp1).
    unfold Parse_track at 1. rewrite Hpat, Hidx, Hch, !bind_Ok_l.
    apply NewMessage_inv in Hn as (a0 & a1 & b0 & b1 & b2 & rest & Hk1 & ->).
    rewrite load_swap_payload in Hk1. fold (dedup_key h first) in Hk1.
    rewrite (NewMessage_Ok _ second a0 a1 b0 b1 b2 rest).
    + rewrite !bind_Ok_l. simpl. by eexists _, _, _.
    + by rewrite load_swap_payload, Hkey.
Qed.

End MoreFrames.

(** ** Rendering *)

Lemma chars_app a b : chars (a +:+ b) = chars a ++ chars b.
Proof. induction a as [|c a IH]; simpl; [done|]. by rewrite IH. Qed.

Lemma chars_inj a b : chars a = chars b -> a = b.
Proof.
  intros Heq. rewrite <- (String.string_of_list_ascii_of_string a).
  rewrite <- (String.string_of_list_ascii_of_string b).
  unfold chars in Heq. by rewrite Heq.
Qed.

(** Two texts that agree and are cut at the first occurrence of a character
    agree before and after the cut. *)
Lemma split_at (c : ascii) (a a' r r' : list ascii) :
  c ∉ a -> c ∉ a' -> a ++ c :: r = a' ++ c :: r' -> a = a' /\ r = r'.
Proof.
  revert a'. induction a as [|x a IH]; intros [|x' a'] Ha Ha' Heq;
    simpl in Heq; simplify_eq.
  - done.
  - destruct Ha'. by left.
  - destruct Ha. by left.
  - destruct (IH a') as [-> ->]; [| |done|done].
    + intros Hin. apply Ha. by right.
    + intros Hin. apply Ha'. by right.
Qed.

Lemma pretty_N_char_decimal x : pretty_N_char x ∈ decimal_chars.
Proof.
  unfold pretty_N_char, decimal_chars.
  repeat case_match; apply (bool_decide_unpack _); by vm_compute.
Qed.

Lemma pretty_N_go_decimal x : forall s,
  Forall (fun c => c ∈ decimal_chars) (chars s) ->
  Forall (fun c => c ∈ decimal_chars) (chars (pretty_N_go x s)).
Proof.
  induction (N.lt_wf_0 x) as [x _ IH]; intros s Hs.
  assert (x = 0 \/ 0 < x)%N as [->|Hx] by lia.
  - by rewrite pretty_N_go_0.
  - rewrite pretty_N_go_step by done. apply IH.
    + by apply N.div_lt.
    + simpl. apply Forall_cons. split; [apply pretty_N_char_decimal | done].
Qed.

Lemma pretty_N_decimal (x : N) :
  Forall (fun c => c ∈ decimal_chars) (chars (pretty x)).
Proof.
  unfold pretty, pretty_N. case_decide.
  - apply Forall_forall. intros c Hc. apply (bool_decide_unpack _).
    simpl in Hc. apply list_elem_of_singleton in Hc as ->. by vm_compute.
  - apply pretty_N_go_decimal. simpl. apply Forall_nil_2.
Qed.

Lemma fmt_d_decimal z : Forall (fun c => c ∈ decimal_chars) (chars (fmt_d z)).
Proof.
  unfold fmt_d, pretty, pretty_Z. destruct z as [|x|x].
  - apply Forall_forall. intros c Hc. simpl in Hc.
    apply list_elem_of_singleton in Hc as ->.
    apply (bool_decide_unpack _). by vm_compute.
  - apply (pretty_N_decimal (N.pos x)).
  - rewrite chars_app. apply Forall_app. split.
    + apply Forall_forall. intros c Hc. simpl in Hc.
      apply list_elem_of_singleton in Hc as ->.
      apply (bool_decide_unpack _). by vm_compute.
    + apply (pretty_N_decimal (N.pos x)).
Qed.

Lemma fmt_d_without (c : ascii) z : c ∉ decimal_chars -> c ∉ chars (fmt_d z).
Proof.
  intros Hc Hin. apply Hc.
  by apply (proj1 (Forall_forall _ _) (fmt_d_decimal z)).
Qed.

Lemma fmt_d_inj z z' : fmt_d z = fmt_d z' -> z = z'.
Proof. apply (inj pretty). Qed.

Lemma fmt_2d_chars z :
  chars (fmt_2d z) = chars (fmt_d z) \/
  chars (fmt_2d z) = " "%char :: chars (fmt_d z).
Proof. unfold fmt_2d. case_decide; [by right | by left]. Qed.

Lemma fmt_2d_without (c : ascii) z :
  c ∉ decimal_chars -> c <> " "%char -> c ∉ chars (fmt_2d z).
Proof.
  intros Hc Hsp. destruct (fmt_2d_chars z) as [-> | ->].
  - by apply fmt_d_without.
  - rewrite not_elem_of_cons. split; [done | by apply fmt_d_without].
Qed.

Lemma fmt_2d_inj z z' : fmt_2d z = fmt_2d z' -> z = z'.
Proof.
  assert (Hsp : forall y, " "%char ∉ chars (fmt_d y)).
  { intros y. apply fmt_d_without. apply (bool_decide_unpack _). by vm_compute. }
  unfold fmt_2d. intros Heq. repeat case_decide.
  - apply fmt_d_inj. by simplify_eq/=.
  - destruct (Hsp z'). rewrite <- Heq. simpl. by left.
  - destruct (Hsp z). rewrite Heq. simpl. by left.
  - by apply fmt_d_inj.
Qed.

Lemma Z_of_byte_inj b b' : Z_of_byte b = Z_of_byte b' -> b = b'.
Proof.
  unfold Z_of_byte. intros Heq. apply N2Z.inj in Heq.
  pose proof (Byte.of_to_N b) as Hb. rewrite Heq, Byte.of_to_N in Hb.
  by simplify_eq.
Qed.

Lemma all_bytes_lookup b : all_bytes !! N.to_nat (Byte.to_N b) = Some b.
Proof. destruct b; reflexivity. Qed.

Lemma Sensor_String_NoDup : NoDup (Sensor_String <$> all_bytes).
Proof. apply (bool_decide_unpack _). by vm_compute. Qed.

Lemma Sensor_String_inj' (s s' : Sensor) :
  Sensor_String s = Sensor_String s' -> s = s'.
Proof.
  intros Heq.
  pose proof (all_bytes_lookup s) as Hs. pose proof (all_bytes_lookup s') as Hs'.
  assert (Hi : (Sensor_String <$> all_bytes) !! N.to_nat (Byte.to_N s)
               = Some (Sensor_String s)).
  { apply list_lookup_fmap_Some. eauto. }
  assert (Hi' : (Sensor_String <$> all_bytes) !! N.to_nat (Byte.to_N s')
                = Some (Sensor_String s)).
  { apply list_lookup_fmap_Some. rewrite Heq. eauto. }
  pose proof (NoDup_lookup _ _ _ _ Sensor_String_NoDup Hi Hi') as Hn.
  rewrite Hn in Hs. by simplify_eq.
Qed.

(** [Sensor.String] tells the sensor codes apart: two codes with the same
    text are the same code, among the nine named ones as among the ones
    rendered by their hexadecimal value. *)
Theorem Sensor_String_inj (s s' : Sensor) :
  Sensor_String s = Sensor_String s' <-> s = s'.
Proof. split; [apply Sensor_String_inj' | by intros ->]. Qed.

Lemma Sensor_String_without_colon (s : Sensor) :
  ":"%char ∉ chars (Sensor_String s).
Proof. destruct s; apply (bool_decide_unpack _); by vm_compute. Qed.

Lemma colon_not_decimal : ":"%char ∉ decimal_chars.
Proof. apply (bool_decide_unpack _). by vm_compute. Qed.

Lemma not_elem_of_app_2 (c : ascii) (a b : list ascii) :
  c ∉ a -> c ∉ b -> c ∉ a ++ b.
Proof. intros Ha Hb. rewrite elem_of_app. tauto. Qed.

Lemma cut_at_label (f f' label r r' : list ascii) :
  ":"%char ∉ f -> ":"%char ∉ f' -> ":"%char ∉ label ->
  f ++ (label ++ [":"%char]) ++ r = f' ++ (label ++ [":"%char]) ++ r' ->
  f = f' /\ r = r'.
Proof.
  intros Hf Hf' Hl Heq.
  rewrite <- !(app_assoc label), !(app_assoc _ label) in Heq.
  apply split_at in Heq as [H1 H2]; [| by apply not_elem_of_app_2 ..].
  by apply app_inv_tail in H1.
Qed.

Ltac no_colon := apply (bool_decide_unpack _); by vm_compute.

(** The text of a hop determines the hop: two descriptors that
    [Hop.String] renders alike have the same channel index, carrier and
    frequency error. *)
Theorem Hop_String_inj (h h' : Hop) : Hop_String h = Hop_String h' -> h = h'.
Proof.
  intros Heq. apply (f_equal chars) in Heq. unfold Hop_String in Heq.
  rewrite !chars_app in Heq. apply app_inv_head in Heq.
  change (chars " ChannelFreq:") with (chars " ChannelFreq" ++ [":"%char]) in Heq.
  change (chars " FreqError:") with (chars " FreqError" ++ [":"%char]) in Heq.
  assert (Hsp : ":"%char <> " "%char) by discriminate.
  apply cut_at_label in Heq as [H1 Heq];
    [| by apply fmt_2d_without; [apply colon_not_decimal|]
     | by apply fmt_2d_without; [apply colon_not_decimal|]
     | no_colon].
  apply cut_at_label in Heq as [H2 H3];
    [| apply fmt_d_without, colon_not_decimal
     | apply fmt_d_without, colon_not_decimal
     | no_colon].
  apply chars_inj, fmt_2d_inj in H1. apply chars_inj, fmt_d_inj in H2.
  apply app_inv_tail, chars_inj, fmt_d_inj in H3.
  destruct h, h'. simpl in *. by subst.
Qed.

(** The text of a message determines its id, sensor, wind speed and wind
    direction, and nothing else of the message enters the text: two
    messages are rendered alike exactly when they agree on these four
    fields. *)
Theorem Message_String_fields (m m' : Message.t) :
  Message_String m = Message_String m' <->
  Message.ID m = Message.ID m' /\ Message.Sensor m = Message.Sensor m' /\
  Message.WindSpeed m = Message.WindSpeed m' /\
  Message.WindDirection m = Message.WindDirection m'.
Proof.
  split.
  - intros Heq. apply (f_equal chars) in Heq. unfold Message_String in Heq.
    rewrite !chars_app in Heq. apply app_inv_head in Heq.
    change (chars " Sensor:") with (chars " Sensor" ++ [":"%char]) in Heq.
    change (chars " WindSpeed:") with (chars " WindSpeed" ++ [":"%char]) in Heq.
    change (chars " WindDir:") with (chars " WindDir" ++ [":"%char]) in Heq.
    apply cut_at_label in Heq as [H1 Heq];
      [| apply fmt_d_without, colon_not_decimal
       | apply fmt_d_without, colon_not_decimal
       | no_colon].
    apply cut_at_label in Heq as [H2 Heq];
      [| apply Sensor_String_without_colon
       | apply Sensor_String_without_colon
       | no_colon].
    apply cut_at_label in Heq as [H3 H4];
      [| apply fmt_d_without, colon_not_decimal
       | apply fmt_d_without, colon_not_decimal
       | no_colon].
    apply chars_inj, fmt_d_inj, Z_of_byte_inj in H1.
    apply chars_inj, Sensor_String_inj' in H2.
    apply chars_inj, fmt_d_inj, Z_of_byte_inj in H3.
    apply app_inv_tail, chars_inj, fmt_d_inj, Z_of_byte_inj in H4.
    done.
  - intros (H1 & H2 & H3 & H4). unfold Message_String.
    by rewrite H1, H2, H3, H4.
Qed.

(** * More properties on the instance *)

Lemma demo_reachable : Reachable (C := demo) (parser demo_state1).
Proof.
  apply (Reach_Parse (C := demo) demo_parser demo_mem [pkt_good]
           demo_state1.(msgs) _ demo_state1.(mem)).
  - apply (Reach_demodulate (C := demo)
             (mkParser (mkDemodulator []) (mkCRC16 "CCITT-16" 0 0x1021 0)
                (mkPacketConfig 14 268800) 1 65500000 9 channel_table 6
                hop_table 0 ∅)
             (mkDemodulator demo_trace)).
    apply (Reach_new (C := demo) 14 1 42 _ 1250496027).
    vm_compute; reflexivity.
  - vm_compute; reflexivity.
Qed.

Lemma demo_apart : apart [pkt_good; pkt_bad; pkt_dup].
Proof.
  intros i j a b Ha Hb Hne x.
  destruct i as [|[|[|i]]]; destruct j as [|[|[|j]]];
    simpl in Ha, Hb; simplify_eq; unfold in_window; simpl; lia.
Qed.

Lemma hop_idempotent_witness :
  exists h p', hop demo_tracked = Ok (h, p') /\ hop p' = Ok (h, p').
Proof.
  exists (mkHop 6 868250000 (-50)), demo_tracked.
  assert (Hh : hop demo_tracked = Ok (mkHop 6 868250000 (-50), demo_tracked))
    by (vm_compute; reflexivity).
  split; [exact Hh|]. exact (proj2 (hop_idempotent _ _ _ Hh)).
Defined.

Lemma hop_bounds_witness :
  is_Ok (hop demo_parser) /\
  hop demo_zero = Panic IndexOutOfRange /\
  NextHop demo_zero = Panic IntegerDivideByZero /\
  RandHop (C := demo) demo_zero 5 = Panic InvalidArgumentToIntn.
Proof.
  destruct (hop_bounds (C := demo) demo_parser) as (Hok & _).
  destruct (hop_bounds (C := demo) demo_zero) as (Hzero & Hpanic & Hnext & Hrand).
  split.
  { apply Hok. exists 6. repeat split; simpl; lia. }
  split.
  { apply Hpanic. intros Hz. apply Hzero in Hz as (ch & _ & Hch & _).
    discriminate Hch. }
  split; [apply Hnext; reflexivity|]. apply (Hrand 5). simpl. lia.
Defined.

Lemma hop_descriptor_witness :
  exists h p',
    NextHop demo_parser = Ok (h, p') /\
    ChannelIdx h = 2 /\ ChannelFreq h = 867500000 + 125000 * ChannelIdx h.
Proof.
  assert (Ht : tables_ok demo_parser) by (repeat split; reflexivity).
  destruct (hop_descriptor (C := demo) demo_parser Ht) as (_ & Hnext & _).
  assert (Hh : NextHop demo_parser
               = Ok (mkHop 2 867750000 0, set_hopIdx 7 demo_parser))
    by (vm_compute; reflexivity).
  destruct (Hnext _ _ Hh) as (_ & _ & Hf).
  exists (mkHop 2 867750000 0), (set_hopIdx 7 demo_parser).
  split; [exact Hh|]. split; [reflexivity | exact Hf].
Defined.

Lemma new_receiver_reports_zero_witness :
  exists p g' p2 h p3,
    NewParser (C := demo) 14 1 42 = Ok (p, g') /\
    NextHop p = Ok (h, p2) /\ hop p2 = Ok (h, p3) /\ FreqError h = 0.
Proof.
  set (p := mkParser (mkDemodulator []) (mkCRC16 "CCITT-16" 0 0x1021 0)
              (mkPacketConfig 14 268800) 1 65500000 9 channel_table 6
              hop_table 0 (∅ : gmap Z Z)).
  assert (Hnew : NewParser (C := demo) 14 1 42 = Ok (p, 1250496027))
    by (vm_compute; reflexivity).
  assert (Hnext : NextHop p = Ok (mkHop 2 867750000 0, set_hopIdx 7 p))
    by (vm_compute; reflexivity).
  assert (Hhop : hop (set_hopIdx 7 p) = Ok (mkHop 2 867750000 0, set_hopIdx 7 p))
    by (vm_compute; reflexivity).
  exists p, 1250496027, (set_hopIdx 7 p), (mkHop 2 867750000 0), (set_hopIdx 7 p).
  split; [exact Hnew|]. split; [exact Hnext|]. split; [exact Hhop|].
  refine (proj1 (new_receiver_reports_zero (C := demo) 14 1 42 p _
                   (set_hopIdx 7 p) _ (set_hopIdx 7 p) Hnew _ Hhop)).
  apply rtc_once. exact (step_NextHop (C := demo) _ _ _ Hnext).
Defined.

Lemma NewParser_ignores_symbolLength_witness :
  exists p1 g1' p2 g2',
    NewParser (C := demo) 14 1 42 = Ok (p1, g1') /\
    NewParser (C := demo) 99 1 42 = Ok (p2, g2') /\ p1 = p2.
Proof.
  destruct (NewParser_ignores_symbolLength (C := demo) 14 99 1 42 42)
    as (p1 & g1 & p2 & g2 & H1 & H2 & _ & _ & Hsame).
  exists p1, g1, p2, g2. exact (conj H1 (conj H2 (Hsame eq_refl))).
Defined.

Lemma NextHops_nth_witness :
  exists hs p',
    NextHops 4 demo_parser = Ok (hs, p') /\ length hs = 4%nat /\ hopIdx p' = 1.
Proof.
  destruct (NextHops_nth demo_parser 4) as (hs & p' & Hhs & Hlen & Hidx & _).
  - repeat split; reflexivity.
  - unfold hopIdx_ok. simpl. lia.
  - exists hs, p'. exact (conj Hhs (conj Hlen Hidx)).
Defined.

Lemma Parse_track_accumulates_witness :
  Parse_track 20 demo_tracked = Parse_track (Int.add (-50) 20) demo_parser.
Proof.
  apply (Parse_track_accumulates (-50) 20 demo_parser demo_tracked).
  vm_compute; reflexivity.
Defined.

Lemma Parse_no_message_witness :
  exists h', Parse (C := demo) demo_parser demo_mem [pkt_bad]
             = Ok ([], demo_parser, h').
Proof.
  set (r := from_Ok ([], demo_parser, demo_mem)
              (Parse (C := demo) demo_parser demo_mem [pkt_bad])).
  assert (Hr : Parse (C := demo) demo_parser demo_mem [pkt_bad]
               = Ok ([], r.1.2, r.2)) by (vm_compute; reflexivity).
  exists r.2. rewrite Hr.
  by rewrite (Parse_no_message (C := demo) _ _ _ _ _ Hr).
Defined.

Lemma Parse_current_channel_only_witness :
  channelFreqErr demo_run.1.2 !! 6 = Some (currentFreqErr demo_run.1.2) /\
  channelFreqErr demo_run.1.2 !! 2 = None.
Proof.
  destruct (Parse_current_channel_only (C := demo) demo_parser demo_mem
              [pkt_good; pkt_bad; pkt_dup] demo_run.1.1 demo_run.1.2 demo_run.2 6)
    as [Hother Hcur].
  - vm_compute; reflexivity.
  - reflexivity.
  - split.
    + apply Hcur. vm_compute. discriminate.
    + rewrite Hother by lia. reflexivity.
Defined.

Lemma recorded_channels_valid_witness : 6 ∈ hop_table /\ 0 <= 6 < 9.
Proof.
  apply (recorded_channels_valid (C := demo) (parser demo_state1) 6 (-50)).
  - exact demo_reachable.
  - vm_compute; reflexivity.
Defined.

Lemma tracker_consistent_witness : currentFreqErr (parser demo_state1) = -50.
Proof.
  apply (tracker_consistent (C := demo) (parser demo_state1) 6 (-50)).
  - exact demo_reachable.
  - vm_compute; reflexivity.
  - vm_compute; reflexivity.
Defined.

Lemma Parse_memory_witness :
  load demo_run.2 (Data pkt_dup) = SwapBitOrder <$> load demo_mem (Data pkt_dup) /\
  mem_read demo_run.2 12 = mem_read demo_mem 12.
Proof.
  destruct (Parse_memory (C := demo) demo_parser demo_mem
              [pkt_good; pkt_bad; pkt_dup] demo_run.1.1 demo_run.1.2 demo_run.2)
    as [Hout Hrev].
  - vm_compute; reflexivity.
  - split.
    + apply (Hrev demo_apart). rewrite !elem_of_cons. tauto.
    + apply Hout.
      repeat (apply Forall_cons; split; [unfold in_window; simpl; lia|]).
      apply Forall_nil_2.
Defined.

Lemma Parse_twice_restores_witness :
  load demo_rerun.2 (Data pkt_good) = demo_raw.
Proof.
  rewrite (Parse_twice_restores (C := demo) demo_parser demo_mem
             [pkt_good; pkt_bad; pkt_dup] demo_run.1.1 demo_run.1.2 demo_run.2
             demo_rerun.1.1 demo_rerun.1.2 demo_rerun.2).
  - vm_compute; reflexivity.
  - vm_compute; reflexivity.
  - vm_compute; reflexivity.
  - exact demo_apart.
  - rewrite !elem_of_cons. tauto.
Defined.

Lemma NewMessage_nibbles_witness :
  exists m b0,
    NewMessage (mem demo_state1) pkt_good = Ok m /\
    Message.Data m !! 0%nat = Some b0 /\
    Z_of_byte b0 = 16 * Z_of_byte (Message.Sensor m) + Z_of_byte (Message.ID m).
Proof.
  set (m := Message.mk 100 (drop 2 demo_payload) x03 Temperature x0c xc8).
  assert (Hm : NewMessage (mem demo_state1) pkt_good = Ok m)
    by (vm_compute; reflexivity).
  destruct (NewMessage_nibbles _ _ _ Hm) as (b0 & Hb0 & Hsum & _).
  exists m, b0. exact (conj Hm (conj Hb0 Hsum)).
Defined.

Lemma Parse_prefix_only_difference_witness :
  exists st2 m1 m2,
    Parse_loop (C := demo) demo_state_prefix [pkt_good; pkt_prefix] = Ok st2 /\
    msgs st2 = [m1; m2] /\ Message.Data m2 = Message.Data m1.
Proof.
  set (st1 := from_Ok demo_state_prefix
                (Parse_body (C := demo) demo_state_prefix pkt_good)).
  set (m1 := Message.mk 100 (drop 2 demo_payload) x03 Temperature x0c xc8).
  assert (Hb : Parse_body (C := demo) demo_state_prefix pkt_good = Ok st1)
    by (vm_compute; reflexivity).
  destruct (Parse_prefix_only_difference (C := demo) demo_state_prefix pkt_good
              st1 m1 pkt_prefix Hb)
    as (st2 & m2 & Hb2 & Hmsgs & Hdata & _).
  - vm_compute; reflexivity.
  - vm_compute; reflexivity.
  - unfold separate, in_window. simpl. intros a. lia.
  - vm_compute; reflexivity.
  - vm_compute. discriminate.
  - eexists. reflexivity.
  - exists st2, m1, m2. split; [|exact (conj Hmsgs Hdata)].
    simpl. rewrite Hb, bind_Ok_l, Hb2. reflexivity.
Defined.

Lemma Parse_trace_too_short_witness :
  Parse_loop (C := demo) demo_state [mkPacket 400 (mkSlice 0 10); pkt_bad]
    = Panic SliceBoundsOutOfRange.
Proof.
  refine (proj2 (Parse_trace_too_short (C := demo) demo_state [] demo_state
                   (mkPacket 400 (mkSlice 0 10)) [pkt_bad] _ _ _ _ _ _ _ _)).
  - reflexivity.
  - vm_compute; reflexivity.
  - simpl. lia.
  - vm_compute; reflexivity.
  - unfold Int.in_range, Int.min_int, Int.max_int. simpl. lia.
  - unfold Int.in_range, Int.min_int, Int.max_int. simpl. lia.
  - unfold Int.in_range, Int.min_int, Int.max_int. simpl. lia.
  - right; right. vm_compute; reflexivity.
Defined.

Lemma Sensor_String_inj_witness :
  Sensor_String Humidity = Sensor_String x0a /\ Humidity = x0a.
Proof.
  split; [reflexivity|].
  apply (proj1 (Sensor_String_inj Humidity x0a)). reflexivity.
Defined.

Lemma Hop_String_inj_witness :
  Hop_String (mkHop 6 868250000 (-50))
    = "{ChannelIdx: 6 ChannelFreq:868250000 FreqError:-50}" /\
  mkHop 6 868250000 (-50) = mkHop (2 * 3) 868250000 (- 50).
Proof.
  split; [vm_compute; reflexivity|].
  apply Hop_String_inj. vm_compute; reflexivity.
Defined.

Lemma Message_String_fields_witness :
  Message_String (Message.mk 100 (drop 2 demo_payload) x03 Temperature x0c xc8)
    = Message_String (Message.mk 7 [] x03 Temperature x0c xc8).
Proof.
  apply (proj2 (Message_String_fields _ _)). simpl. repeat split.
Defined.

Lemma hops_write_position_and_error_witness :
  set_hopIdx 0 (set_currentFreqErr 0 (set_hopIdx 7 demo_tracked))
    = set_hopIdx 0 (set_currentFreqErr 0 demo_tracked).
Proof.
  apply (hops_write_position_and_error (C := demo)).
  apply rtc_once.
  apply (step_NextHop (C := demo) _ (mkHop 2 867750000 (-50))).
  vm_compute; reflexivity.
Defined.

Lemma Parse_writes_tracker_only_witness :
  set_currentFreqErr 0 (set_channelFreqErr ∅ demo_run.1.2)
    = set_currentFreqErr 0 (set_channelFreqErr ∅ demo_parser).
Proof.
  apply (Parse_writes_tracker_only (C := demo) demo_parser demo_mem
           [pkt_good; pkt_bad; pkt_dup] demo_run.1.1 demo_run.1.2 demo_run.2).
  vm_compute; reflexivity.
Defined.

Lemma Parse_messages_in_packet_order_witness :
  sublist (Message.Idx <$> demo_run.1.1)
    (Idx <$> [pkt_good; pkt_bad; pkt_dup]) /\
  (length demo_run.1.1 <= 3)%nat.
Proof.
  apply (Parse_messages_in_packet_order (C := demo) demo_parser demo_mem
           [pkt_good; pkt_bad; pkt_dup] demo_run.1.1 demo_run.1.2 demo_run.2).
  vm_compute; reflexivity.
Defined.

Lemma Parse_forgets_between_calls_witness :
  (exists h2, Parse (C := demo) demo_parser demo_mem [pkt_good; pkt_dup]
              = Ok ([Message.mk 100 (drop 2 demo_payload) x03 Temperature x0c xc8],
                    parser demo_state1, h2)) /\
  (exists m' p2 h2,
     Parse (C := demo) (parser demo_state1) (mem demo_state1) [pkt_dup]
       = Ok ([m'], p2, h2) /\
     Message.Data m'
       = Message.Data (Message.mk 100 (drop 2 demo_payload) x03 Temperature x0c xc8)).
Proof.
  apply (Parse_forgets_between_calls (C := demo) demo_parser demo_mem
           pkt_good pkt_dup).
  - vm_compute; reflexivity.
  - unfold separate, in_window. simpl. intros a. lia.
  - vm_compute; reflexivity.
  - eexists. vm_compute; reflexivity.
Defined.
